(** * camera-backup: the segment uploader ([camera_backup/uploader.py])

    A shallow embedding of [S3Uploader] (scanner, upload coordinator and
    poll loop) over an explicit model of what the code talks to: the local
    directory tree, the wall clock, the object store client and the log.

    Conventions.
    - A [Path] object is the list of its components below [/]; paths are
      ordered the way [pathlib] orders them, component by component.
    - Timestamps ([st_mtime], [time.time()]) are exact rationals, in
      seconds; the rounding of Python floats is not modelled.
    - The code is single threaded.  Everything that is not the code (the
      recorder, an operator, the network, the passing of time) acts at the
      two blocking calls, [s3_client.upload_file] and [time.sleep]; what it
      does there is read from a script carried by the world, so that every
      statement quantifies over all behaviours of the environment. *)

From Stdlib Require Import List String Ascii ZArith QArith Qround Bool Lia.
From Stdlib Require Import Sorting Permutation OrderedTypeEx.
From Stdlib Require Import DecimalString Lqa.
Import ListNotations.

Local Open Scope string_scope.
Local Open Scope list_scope.

(* ===================================================================== *)
(** ** Exceptions *)
(* ===================================================================== *)

(** The exception classes the code can meet.  [KeyboardInterrupt] and
    [SystemExit] derive from [BaseException] only; all others derive from
    [Exception], which is what [except Exception] catches. *)
Inductive exc_class : Type :=
| KeyboardInterrupt
| SystemExit
| FileNotFoundError
| NotADirectoryError
| IsADirectoryError
| PermissionError
| ValueError
| ClientError
| EndpointConnectionError
| S3UploadFailedError
| OtherException (cls : string).

Record exn : Type := mkExn { exc_cls : exc_class; exc_msg : string }.

Definition isinstance_Exception (e : exn) : bool :=
  match exc_cls e with
  | KeyboardInterrupt | SystemExit => false
  | _ => true
  end.

Definition isinstance_KeyboardInterrupt (e : exn) : bool :=
  match exc_cls e with
  | KeyboardInterrupt => true
  | _ => false
  end.

(* ===================================================================== *)
(** ** Paths *)
(* ===================================================================== *)

Definition path := list string.

(** [Path.name]: the last component, empty for the root. *)
Definition name (p : path) : string := last p "".

(** [Path.parent]. *)
Definition parent (p : path) : path := removelast p.

(** [str(path)]. *)
Definition str (p : path) : string := "/" ++ String.concat "/" p.

(** [PurePath.__lt__] compares the lists of components; [str.__lt__]
    compares code points, which on UTF-8 names is the byte order. *)
Definition path_compare : path -> path -> comparison :=
  list_compare String.compare.

Definition path_leb (p q : path) : bool :=
  match path_compare p q with Gt => false | _ => true end.

Definition path_le (p q : path) : Prop := path_leb p q = true.

(** [sorted(segments)]: a stable insertion sort; only [<] between paths is
    used, as [sorted] does. *)
Fixpoint insert_sorted (p : path) (l : list path) : list path :=
  match l with
  | [] => [p]
  | q :: l' =>
      match path_compare p q with
      | Lt => p :: q :: l'
      | _ => q :: insert_sorted p l'
      end
  end.

Definition sorted (l : list path) : list path :=
  fold_left (fun acc p => insert_sorted p acc) l [].

(** [fnmatch(name, "*.mp4")], case sensitive as on POSIX; [*] also matches
    the empty string and a leading dot. *)
Definition matches_mp4 (n : string) : bool :=
  (4 <=? String.length n)%nat &&
  String.eqb (substring (String.length n - 4) 4 n) ".mp4".

(* ===================================================================== *)
(** ** The local directory tree *)
(* ===================================================================== *)

(** Regular files and directories, each with its modification time; a
    directory lists its entries in the order [os.scandir] yields them,
    which is arbitrary. *)
#[warnings="-register-all"]
Inductive node : Type :=
| File (mtime : Q)
| Dir (mtime : Q) (entries : list (string * node)).

Definition st_mtime (n : node) : Q :=
  match n with File m => m | Dir m _ => m end.

Definition node_is_dir (n : node) : bool :=
  match n with Dir _ _ => true | File _ => false end.

Fixpoint assoc (c : string) (es : list (string * node)) : option node :=
  match es with
  | [] => None
  | (c', n) :: es' => if String.eqb c c' then Some n else assoc c es'
  end.

(** Path resolution from the root of the tree. *)
Fixpoint lookup (n : node) (p : path) : option node :=
  match p with
  | [] => Some n
  | c :: p' =>
      match n with
      | Dir _ es =>
          match assoc c es with
          | Some n' => lookup n' p'
          | None => None
          end
      | File _ => None
      end
  end.

Fixpoint remove_entry (c : string) (es : list (string * node))
  : list (string * node) :=
  match es with
  | [] => []
  | (c', n) :: es' =>
      if String.eqb c c' then remove_entry c es' else (c', n) :: remove_entry c es'
  end.

Fixpoint update_entry (c : string) (f : node -> node)
    (es : list (string * node)) : list (string * node) :=
  match es with
  | [] => []
  | (c', n) :: es' =>
      if String.eqb c c' then (c', f n) :: es' else (c', n) :: update_entry c f es'
  end.

(** The tree without the entry at [p] (the modification time of the
    containing directory, which the code never reads, is left alone). *)
Fixpoint remove (n : node) (p : path) : node :=
  match p with
  | [] => n
  | [c] =>
      match n with
      | Dir m es => Dir m (remove_entry c es)
      | File _ => n
      end
  | c :: p' =>
      match n with
      | Dir m es => Dir m (update_entry c (fun n' => remove n' p') es)
      | File _ => n
      end
  end.

(* ===================================================================== *)
(** ** The world *)
(* ===================================================================== *)

Inductive level : Type := INFO | ERROR.

(** What an observer sees of a run, in order. *)
Inductive event : Type :=
| EvLog (lv : level) (msg : string)
| EvS3Call (file : path) (bucket key : string)
| EvS3Ack (file : path) (bucket key : string)
| EvUnlink (file : path)
| EvSleep (secs : Q).

(** Why the system refuses to remove an entry that is there: the
    process may not write to the directory, the file is protected, the
    file system is mounted read-only, the entry is in use, the device
    fails. *)
Inductive refusal : Type := EACCES | EPERM | EROFS | EBUSY | EIO.

(** One move of the environment, played while the code is blocked:
    what other processes did to the entries of the root directory, how
    much longer the call took, whether the store call failed, whether the
    operator interrupted, and what became of the removals the system
    refuses (see [refused] below). *)
Record env_move : Type := mkMove {
  during : list (string * node) -> list (string * node);
  elapsed : Q;
  s3_fault : option exn;
  interrupt : bool;
  refusing : (path -> option refusal) -> path -> option refusal
}.

Definition quiet : env_move :=
  {| during := fun es => es; elapsed := 0; s3_fault := None;
     interrupt := false; refusing := fun r => r |}.

Record s3_object : Type := mkObject {
  obj_bucket : string;
  obj_key : string;
  obj_source : path
}.

(** [refused p] tells why the system refuses to remove the entry at
    [p], when it does. *)
Record World : Type := mkWorld {
  root : list (string * node);
  clock : Q;
  tz : Z -> Z;
  remote : list s3_object;
  trace : list event;
  pending : list env_move;
  refused : path -> option refusal
}.

(** The local tree: [/] is a directory, whatever happens. *)
Definition fs (w : World) : node := Dir 0 (root w).

Definition entries (n : node) : list (string * node) :=
  match n with
  | Dir _ es => es
  | File _ => []
  end.

Definition next_move (w : World) : env_move :=
  match pending w with
  | [] => quiet
  | mv :: _ => mv
  end.

Definition emit (evs : list event) (w : World) : World :=
  mkWorld (root w) (clock w) (tz w) (remote w) (trace w ++ evs) (pending w)
          (refused w).

(** The world once the environment has played its next move. *)
Definition play (extra : Q) (w : World) : World :=
  let mv := next_move w in
  mkWorld (during mv (root w)) (clock w + extra + elapsed mv) (tz w)
          (remote w) (trace w) (tl (pending w)) (refusing mv (refused w)).

Definition store (o : s3_object) (w : World) : World :=
  mkWorld (root w) (clock w) (tz w) (o :: remote w) (trace w) (pending w)
          (refused w).

Definition set_fs (n : node) (w : World) : World :=
  mkWorld (entries n) (clock w) (tz w) (remote w) (trace w) (pending w)
          (refused w).

(** The tree as the environment leaves it during the next blocking
    call. *)
Definition meanwhile (w : World) : node :=
  Dir 0 (during (next_move w) (root w)).

(** The removals the system refuses once the environment has played its
    next move. *)
Definition refused_meanwhile (w : World) : path -> option refusal :=
  refusing (next_move w) (refused w).

(* ===================================================================== *)
(** ** Computations: state and exceptions *)
(* ===================================================================== *)

Inductive outcome (A : Type) : Type :=
| Ret (a : A)
| Raise (e : exn).
Arguments Ret {A} a.
Arguments Raise {A} e.

Definition M (A : Type) : Type := World -> outcome A * World.

Definition ret {A} (a : A) : M A := fun w => (Ret a, w).

Definition raise {A} (e : exn) : M A := fun w => (Raise e, w).

Definition bind {A B} (c : M A) (k : A -> M B) : M B :=
  fun w =>
    match c w with
    | (Ret a, w') => k a w'
    | (Raise e, w') => (Raise e, w')
    end.

(** [try: c  except <classes accepted by handles> as e: h e]. *)
Definition try_except {A} (c : M A) (handles : exn -> bool) (h : exn -> M A)
  : M A :=
  fun w =>
    match c w with
    | (Ret a, w') => (Ret a, w')
    | (Raise e, w') => if handles e then h e w' else (Raise e, w')
    end.

(** A [try] with two [except] clauses, tried in order; what a handler
    raises is not offered to the other. *)
Definition try_except2 {A} (c : M A)
    (handles1 : exn -> bool) (h1 : exn -> M A)
    (handles2 : exn -> bool) (h2 : exn -> M A) : M A :=
  fun w =>
    match c w with
    | (Ret a, w') => (Ret a, w')
    | (Raise e, w') =>
        if handles1 e then h1 e w'
        else if handles2 e then h2 e w'
        else (Raise e, w')
    end.

Declare Scope monad_scope.
Delimit Scope monad_scope with monad.
Notation "x <- c ;; k" := (bind c (fun x => k))
  (at level 61, c at next level, right associativity) : monad_scope.
Notation "c ;; k" := (bind c (fun _ => k))
  (at level 61, right associativity) : monad_scope.
Local Open Scope monad_scope.

(** [for x in xs: body x]. *)
Fixpoint for_each {A} (xs : list A) (body : A -> M unit) : M unit :=
  match xs with
  | [] => ret tt
  | x :: xs' => body x ;; for_each xs' body
  end.

(** A loop that grows an accumulator, as [for x in xs: ... acc.append(..)]. *)
Fixpoint for_fold {A S} (xs : list A) (body : S -> A -> M S) (s : S) : M S :=
  match xs with
  | [] => ret s
  | x :: xs' => s' <- body s x ;; for_fold xs' body s'
  end.

(* ===================================================================== *)
(** ** What the code calls *)
(* ===================================================================== *)

(** *** [pathlib] *)

(** An [OSError] of class [cls] about [p], with the text [str(e)] has. *)
Definition os_error (cls : exc_class) (strerror : string) (p : path) : exn :=
  mkExn cls (strerror ++ ": '" ++ str p ++ "'").

Definition no_such_file (p : path) : exn :=
  os_error FileNotFoundError "[Errno 2] No such file or directory" p.

Definition not_a_directory (p : path) : exn :=
  os_error NotADirectoryError "[Errno 20] Not a directory" p.

Definition is_a_directory (p : path) : exn :=
  os_error IsADirectoryError "[Errno 21] Is a directory" p.

Definition iterdir (p : path) : M (list path) :=
  fun w =>
    match lookup (fs w) p with
    | Some (Dir _ es) => (Ret (map (fun e => p ++ [fst e]) es), w)
    | Some (File _) => (Raise (not_a_directory p), w)
    | None => (Raise (no_such_file p), w)
    end.

Definition is_dir (p : path) : M bool :=
  fun w =>
    match lookup (fs w) p with
    | Some n => (Ret (node_is_dir n), w)
    | None => (Ret false, w)
    end.

(** [p.glob("*.mp4")]: the entries of [p] itself whose name matches, of
    whatever kind; nothing when [p] is not a directory. *)
Definition glob_mp4 (p : path) : M (list path) :=
  fun w =>
    match lookup (fs w) p with
    | Some (Dir _ es) =>
        (Ret (map (fun e => p ++ [fst e])
                  (filter (fun e => matches_mp4 (fst e)) es)), w)
    | _ => (Ret [], w)
    end.

(** [p.stat().st_mtime]. *)
Definition stat_mtime (p : path) : M Q :=
  fun w =>
    match lookup (fs w) p with
    | Some n => (Ret (st_mtime n), w)
    | None => (Raise (no_such_file p), w)
    end.

(** The [OSError] of a refused removal: [PermissionError] for [EACCES]
    and [EPERM], plain [OSError] otherwise. *)
Definition refusal_error (r : refusal) (p : path) : exn :=
  match r with
  | EACCES => os_error PermissionError "[Errno 13] Permission denied" p
  | EPERM => os_error PermissionError "[Errno 1] Operation not permitted" p
  | EROFS =>
      os_error (OtherException "OSError") "[Errno 30] Read-only file system" p
  | EBUSY =>
      os_error (OtherException "OSError") "[Errno 16] Device or resource busy" p
  | EIO => os_error (OtherException "OSError") "[Errno 5] Input/output error" p
  end.

(** [p.unlink()]: the entry must be there and must not be a directory,
    and the system may refuse to remove it although it is there. *)
Definition unlink (p : path) : M unit :=
  fun w =>
    match lookup (fs w) p with
    | Some (File _) =>
        match refused w p with
        | Some r => (Raise (refusal_error r p), w)
        | None => (Ret tt, emit [EvUnlink p] (set_fs (remove (fs w) p) w))
        end
    | Some (Dir _ _) => (Raise (is_a_directory p), w)
    | None => (Raise (no_such_file p), w)
    end.

(** *** [time] *)

Definition time_time : M Q := fun w => (Ret (clock w), w).

Definition Qltb (x y : Q) : bool := negb (Qle_bool y x).

(** [time.sleep(secs)]: refuses a negative length; otherwise blocks, and
    the environment moves. *)
Definition sleep (secs : Q) : M unit :=
  fun w =>
    if Qltb secs 0 then
      (Raise (mkExn ValueError "sleep length must be non-negative"), w)
    else
      let w' := play secs (emit [EvSleep secs] w) in
      if interrupt (next_move w) then (Raise (mkExn KeyboardInterrupt ""), w')
      else (Ret tt, w').

(** *** [logging] *)

Definition logger_info (msg : string) : M unit :=
  fun w => (Ret tt, emit [EvLog INFO msg] w).

Definition logger_error (msg : string) : M unit :=
  fun w => (Ret tt, emit [EvLog ERROR msg] w).

(** *** [boto3]: [s3_client.upload_file(file, bucket, key)] *)

(** The client opens the local file ([file] stands for the
    [str(local_file)] it is given), which must be a regular file, then
    blocks on the network.  When the call returns normally the object is
    in the bucket under [key]. *)
Definition s3_upload_file (file : path) (bucket key : string) : M unit :=
  fun w =>
    match lookup (fs w) file with
    | Some (File _) =>
        let w' := play 0 (emit [EvS3Call file bucket key] w) in
        match s3_fault (next_move w) with
        | Some e => (Raise e, w')
        | None =>
            (Ret tt, emit [EvS3Ack file bucket key]
                          (store (mkObject bucket key file) w'))
        end
    | Some (Dir _ _) => (Raise (is_a_directory file), w)
    | None => (Raise (no_such_file file), w)
    end.

(** *** [datetime] *)

Record datetime : Type := mkDatetime {
  year : Z; month : Z; day : Z;
  hour : Z; minute : Z; second : Z; microsecond : Z
}.

(** Proleptic Gregorian date of day number [z] (day 0 is 1970-01-01). *)
Definition civil_from_days (z : Z) : Z * Z * Z :=
  let z := (z + 719468)%Z in
  let era := (z / 146097)%Z in
  let doe := (z - era * 146097)%Z in
  let yoe := ((doe - doe / 1460 + doe / 36524 - doe / 146096) / 365)%Z in
  let doy := (doe - (365 * yoe + yoe / 4 - yoe / 100))%Z in
  let mp := ((5 * doy + 2) / 153)%Z in
  let d := (doy - (153 * mp + 2) / 5 + 1)%Z in
  let m := (if (mp <? 10)%Z then mp + 3 else mp - 9)%Z in
  let y := (yoe + era * 400 + (if (m <=? 2)%Z then 1 else 0))%Z in
  (y, m, d).

(** Round to the nearest integer, ties to even. *)
Definition round_half_even (q : Q) : Z :=
  let f := Qfloor q in
  let r := (q - inject_Z f)%Q in
  if Qltb r (1 # 2) then f
  else if Qltb (1 # 2) r then (f + 1)%Z
  else if Z.even f then f else (f + 1)%Z.

(** The local date and time of timestamp [t], to the microsecond, where
    [offset] gives the offset of local time from UTC at each instant;
    nothing for years outside 1..9999. *)
Definition localtime (offset : Z -> Z) (t : Q) : option datetime :=
  let us := round_half_even (t * 1000000) in
  let secs := (us / 1000000)%Z in
  let local := (secs + offset secs)%Z in
  let '(y, m, d) := civil_from_days (local / 86400) in
  let sod := (local mod 86400)%Z in
  if ((y <? 1) || (9999 <? y))%Z then None
  else Some (mkDatetime y m d (sod / 3600) ((sod / 60) mod 60) (sod mod 60)
                        (us mod 1000000)).

(** [datetime.fromtimestamp(t)]: the local time of the machine; it
    refuses a year out of range. *)
Definition fromtimestamp (t : Q) : M datetime :=
  fun w =>
    match localtime (tz w) t with
    | Some dt => (Ret dt, w)
    | None => (Raise (mkExn ValueError "year is out of range"), w)
    end.

Definition digit (n : Z) : string :=
  String (ascii_of_nat (48 + Z.to_nat (n mod 10))) "".

Fixpoint zero_pad (width : nat) (n : Z) : string :=
  match width with
  | O => ""
  | S w => zero_pad w (n / 10) ++ digit n
  end.

(** [dt.strftime('%Y/%m/%d')]. *)
Definition strftime_Ymd (dt : datetime) : string :=
  zero_pad 4 (year dt) ++ "/" ++ zero_pad 2 (month dt) ++ "/" ++
  zero_pad 2 (day dt).

(** [f"{n}"] for [n = len(...)]. *)
Definition str_of_nat (n : nat) : string :=
  NilEmpty.string_of_uint (Nat.to_uint n).

(* ===================================================================== *)
(** ** [class S3Uploader] *)
(* ===================================================================== *)

(** The attributes [__init__] sets from the configuration file; the
    client object stands for the store and lives in the world. *)
Record S3Uploader : Type := mkUploader {
  local_path : path;
  check_interval : Q;
  delete_after_upload : bool;
  bucket : string
}.

(** [find_completed_segments]: "Find video files that are ready for
    upload". *)
Definition find_completed_segments (self : S3Uploader) : M (list path) :=
  camera_dirs <- iterdir (local_path self) ;;
  segments <-
    for_fold camera_dirs (fun segments camera_dir =>
      d <- is_dir camera_dir ;;
      if negb d then ret segments
      else
        video_files <- glob_mp4 camera_dir ;;
        for_fold video_files (fun segments video_file =>
          mod_time <- stat_mtime video_file ;;
          now <- time_time ;;
          if Qltb 300 (now - mod_time) then ret (segments ++ [video_file])
          else ret segments) segments) [] ;;
  ret (sorted segments).

(** The S3 key: [camera/YYYY/MM/DD/filename]. *)
Definition s3_key_of (camera_name : string) (date_str : datetime)
    (filename : string) : string :=
  camera_name ++ "/" ++ strftime_Ymd date_str ++ "/" ++ filename.

(** [upload_file]: "Upload a file to S3-compatible storage". *)
Definition upload_file (self : S3Uploader) (local_file : path) : M bool :=
  let camera_name := name (parent local_file) in
  let filename := name local_file in
  mtime <- stat_mtime local_file ;;
  date_str <- fromtimestamp mtime ;;
  let s3_key := s3_key_of camera_name date_str filename in
  try_except
    (logger_info ("Uploading " ++ str local_file ++ " to " ++ s3_key) ;;
     s3_upload_file local_file (bucket self) s3_key ;;
     logger_info ("Upload successful: " ++ s3_key) ;;
     (if delete_after_upload self then
        unlink local_file ;;
        logger_info ("Deleted local file: " ++ str local_file)
      else ret tt) ;;
     ret true)
    isinstance_Exception
    (fun e =>
       logger_error ("Upload failed for " ++ str local_file ++ ": " ++ exc_msg e) ;;
       ret false).

(** The body of the [try] in [run_continuous]: one poll cycle and the
    sleep that follows it. *)
Definition poll_cycle (self : S3Uploader) : M unit :=
  segments <- find_completed_segments self ;;
  for_each segments (fun segment => _ <- upload_file self segment ;; ret tt) ;;
  match segments with
  | [] => ret tt
  | _ :: _ =>
      logger_info ("Processed " ++ str_of_nat (List.length segments) ++ " segments")
  end ;;
  sleep (check_interval self).

Inductive loop_ctl : Type := Continue | Break.

(** One turn of [while True]: the [try] with its two handlers,
    [except KeyboardInterrupt] first, then [except Exception]. *)
Definition loop_turn (self : S3Uploader) : M loop_ctl :=
  try_except2
    (poll_cycle self ;; ret Continue)
    isinstance_KeyboardInterrupt
    (fun _ => logger_info "Uploader stopped by user" ;; ret Break)
    isinstance_Exception
    (fun e =>
       logger_error ("Error in upload loop: " ++ exc_msg e) ;;
       sleep 60 ;;
       ret Continue).

(** How a run stands after a number of turns of the loop. *)
Inductive run_state : Type := Running | Stopped.

Fixpoint while_true (turns : nat) (self : S3Uploader) : M run_state :=
  match turns with
  | O => ret Running
  | S n =>
      c <- loop_turn self ;;
      match c with
      | Continue => while_true n self
      | Break => ret Stopped
      end
  end.

(** [run_continuous], observed for [turns] turns of its loop. *)
Definition run_continuous (turns : nat) (self : S3Uploader) : M run_state :=
  logger_info "Starting S3 uploader" ;;
  while_true turns self.

(* ===================================================================== *)
(** ** What the loops compute *)
(* ===================================================================== *)

(** The test [time.time() - mod_time > 300] on the entry at [p]. *)
Definition ready (t : node) (now : Q) (p : path) : bool :=
  match lookup t p with
  | Some n => Qltb 300 (now - st_mtime n)
  | None => false
  end.

(** The paths [p.iterdir()] yields. *)
Definition children (t : node) (p : path) : list path :=
  match lookup t p with
  | Some (Dir _ es) => map (fun e => p ++ [fst e]) es
  | _ => []
  end.

(** The paths [p.glob("*.mp4")] yields. *)
Definition videos_in (t : node) (p : path) : list path :=
  match lookup t p with
  | Some (Dir _ es) =>
      map (fun e => p ++ [fst e]) (filter (fun e => matches_mp4 (fst e)) es)
  | _ => []
  end.

(** The list [segments] as the two nested loops leave it, before it is
    sorted: camera directories in listing order, and within each the
    matching entries that pass the age test, in listing order. *)
Definition scan (t : node) (now : Q) (root : path) : list path :=
  flat_map (fun c => filter (ready t now) (videos_in t c)) (children t root).

(** No directory of the tree lists a name twice. *)
Fixpoint nodupb (l : list string) : bool :=
  match l with
  | [] => true
  | x :: l' => negb (existsb (String.eqb x) l') && nodupb l'
  end.

Fixpoint well_listed (n : node) : bool :=
  match n with
  | File _ => true
  | Dir _ es =>
      nodupb (map fst es) &&
      (fix all (es : list (string * node)) : bool :=
         match es with
         | [] => true
         | e :: es' => well_listed (snd e) && all es'
         end) es
  end.

(** What [os.stat] shows of the entry at [p]: its kind and its
    modification time. *)
Definition stat (t : node) (p : path) : option (bool * Q) :=
  match lookup t p with
  | Some n => Some (node_is_dir n, st_mtime n)
  | None => None
  end.

(** The events a computation added to the trace of [w]. *)
Definition new_events (w w' : World) : list event :=
  skipn (List.length (trace w)) (trace w').

(** The number a string of decimal digits denotes. *)
Definition digit_value (c : ascii) : Z := (Z.of_nat (nat_of_ascii c) - 48)%Z.

Fixpoint decimal_value_from (acc : Z) (s : string) : Z :=
  match s with
  | EmptyString => acc
  | String c s' => decimal_value_from (10 * acc + digit_value c) s'
  end.

Definition decimal_value (s : string) : Z := decimal_value_from 0 s.

(** The remote object key as the specification words it:
    [{camera}/{year}/{month}/{day}/{filename}], year, month and day zero
    padded. *)
Definition remote_object_key (camera : string) (y m d : Z) (filename : string)
  : string :=
  camera ++ "/" ++ zero_pad 4 y ++ "/" ++ zero_pad 2 m ++ "/" ++ zero_pad 2 d
         ++ "/" ++ filename.

(** The same instant as [noon], on a machine two hours east of UTC. *)
Definition two_hours_east (moves : list env_move) (mtime : Q) : World :=
  mkWorld [("srv", Dir 0 [("segments", Dir 0
             [("front-door", Dir 0 [("20240115_120000.mp4", File mtime)])])])]
          (mtime + 400) (fun _ => 7200%Z) [] [] moves (fun _ => None).

(** The environment of a world, its history (log and bucket) erased. *)
Definition forget (w : World) : World :=
  mkWorld (root w) (clock w) (tz w) [] [] (pending w) (refused w).

(** [w'] with the history of [w0] put before its own. *)
Definition replay (w0 w' : World) : World :=
  mkWorld (root w') (clock w') (tz w') (remote w' ++ remote w0)
          (trace w0 ++ trace w') (pending w') (refused w').

(** A computation that never consults the history: it does after any
    past what it does after none. *)
Definition history_free {A} (c : M A) : Prop :=
  forall w, c w = (fst (c (forget w)), replay w (snd (c (forget w)))).

(* ===================================================================== *)
(** ** Sample data, after the fixtures of [tests/test_uploader.py] *)
(* ===================================================================== *)

Definition storage : path := ["srv"; "segments"].

(** A tree whose storage root holds [cameras]. *)
Definition tree_of (cameras : list (string * node)) : node :=
  Dir 0 [("srv", Dir 0 [("segments", Dir 0 cameras)])].

(** A machine on UTC with tree [t] at time [now], no history, and no
    removal refused. *)
Definition world_at (t : node) (now : Q) (moves : list env_move) : World :=
  mkWorld (entries t) now (fun _ => 0%Z) [] [] moves (fun _ => None).

(** 2024-01-15 12:00:00 UTC. *)
Definition noon : Q := 1705320000.

Definition uploader : S3Uploader := mkUploader storage 300 true "test-bucket".

Definition uploader_keeping : S3Uploader :=
  mkUploader storage 300 false "test-bucket".

Definition the_segment : path := storage ++ ["front-door"; "20240115_120000.mp4"].

(** One camera, one segment written 400 seconds ago; the environment is
    scripted by [moves]. *)
Definition world_with (moves : list env_move) : World :=
  world_at (tree_of [("front-door", Dir 0 [("20240115_120000.mp4", File noon)])])
           (noon + 400) moves.

Definition store_error : env_move :=
  mkMove (fun es => es) 2 (Some (mkExn ClientError "AccessDenied")) false
         (fun r => r).

(** Somebody removes [p] while the code is blocked. *)
Definition removed_meanwhile (p : path) : env_move :=
  mkMove (fun es => entries (remove (Dir 0 es) p)) 2 None false (fun r => r).

(** The file system is mounted read-only while the code is blocked. *)
Definition read_only_meanwhile : env_move :=
  mkMove (fun es => es) 2 None false
         (fun _ _ => Some EROFS).

(** A busier storage root, [age] seconds being how long ago a file was
    last written: two cameras with footage, one without, a stray file
    and, under [front-door], a log, a nested directory and segments on
    both sides of the threshold and on it. *)
Definition busy_cameras (now : Q) : list (string * node) :=
    [("front-door", Dir 0
        [("20240115_130000.mp4", File (now - 100));
         ("log.txt", File (now - 4000));
         ("20240115_125500.mp4", File (now - 300));
         ("archive", Dir 0 [("20240114_120000.mp4", File (now - 90000))]);
         ("20240115_120000.mp4", File (now - 400))]);
     ("stray.mp4", File (now - 4000));
     ("garage", Dir 0 []);
     ("back-yard", Dir 0 [("20240115_110000.mp4", File (now - 4000))])].

Definition busy_tree (now : Q) : node := tree_of (busy_cameras now).

Definition busy_world (moves : list env_move) : World :=
  world_at (busy_tree (noon + 400)) (noon + 400) moves.

(** The busy root, listed by the system in another order. *)
Definition busy_world_relisted : World :=
  world_at (Dir 0 [("srv", Dir 0 [("segments", Dir 0
     [("back-yard", Dir 0 [("20240115_110000.mp4", File (noon + 400 - 4000))]);
      ("garage", Dir 0 []);
      ("stray.mp4", File (noon + 400 - 4000));
      ("front-door", Dir 0
        [("20240115_120000.mp4", File (noon + 400 - 400));
         ("archive", Dir 0 [("20240114_120000.mp4", File (noon + 400 - 90000))]);
         ("20240115_125500.mp4", File (noon + 400 - 300));
         ("log.txt", File (noon + 400 - 4000));
         ("20240115_130000.mp4", File (noon + 400 - 100))])])])])
    (noon + 400) [].

(** Three old segments of one camera. *)
Definition segment_1 : path := storage ++ ["front-door"; "20240115_100000.mp4"].
Definition segment_2 : path := storage ++ ["front-door"; "20240115_110000.mp4"].
Definition segment_3 : path := storage ++ ["front-door"; "20240115_120000.mp4"].

Definition three_segments (moves : list env_move) : World :=
  world_at (tree_of [("front-door", Dir 0
              [("20240115_100000.mp4", File (noon - 7200));
               ("20240115_110000.mp4", File (noon - 3600));
               ("20240115_120000.mp4", File noon)])])
           (noon + 400) moves.

(** The storage root is missing; [moves] may bring it back. *)
Definition broken_world (moves : list env_move) : World :=
  world_at (Dir 0 [("srv", Dir 0 [])]) (noon + 400) moves.

(** The storage root is mounted again, with the busy tree. *)
Definition remounted : env_move :=
  mkMove (fun _ => entries (busy_tree (noon + 400))) 0 None false (fun r => r).

(** Two cameras of which one's name begins the other's, and a directory
    named like a video. *)
Definition odd_world : World :=
  world_at (tree_of
              [("front-door", Dir 0 [("a.mp4", File noon);
                                     ("clips.mp4", Dir noon [("b.mp4", File noon)])]);
               ("front", Dir 0 [("z.mp4", File noon)])])
           (noon + 400) [].

(* ===================================================================== *)
(** ** What a call leaves alone *)
(* ===================================================================== *)









(* ===================================================================== *)
(** * Properties *)
(* ===================================================================== *)

(** ** The order on paths and [sorted] *)

Section PathOrder.

Lemma string_compare_eq (x y : string) : String.compare x y = Eq <-> x = y.
Proof. exact (String_as_OT.cmp_eq x y). Qed.

Lemma string_compare_opp (x y : string) :
  String.compare y x = CompOpp (String.compare x y).
Proof. exact (String_as_OT.cmp_antisym y x). Qed.

Lemma string_compare_trans (x y z : string) (c : comparison) :
  String.compare x y = c -> String.compare y z = c -> String.compare x z = c.
Proof.
  destruct c; intros Hxy Hyz.
  - apply string_compare_eq in Hxy, Hyz. subst. now apply string_compare_eq.
  - apply String_as_OT.cmp_lt.
    apply String_as_OT.cmp_lt in Hxy, Hyz.
    eapply String_as_OT.lt_trans; eauto.
  - rewrite string_compare_opp. rewrite string_compare_opp in Hxy, Hyz.
    assert (Hzy : String.compare z y = Lt)
      by (destruct (String.compare z y); simpl in *; congruence).
    assert (Hyx : String.compare y x = Lt)
      by (destruct (String.compare y x); simpl in *; congruence).
    apply String_as_OT.cmp_lt in Hzy, Hyx.
    assert (Hzx : String.compare z x = Lt)
      by (apply String_as_OT.cmp_lt; eapply String_as_OT.lt_trans; eauto).
    now rewrite Hzx.
Qed.

Lemma path_compare_eq (p q : path) : path_compare p q = Eq <-> p = q.
Proof. apply list_compare_refl, string_compare_eq. Qed.

Lemma path_compare_opp (p q : path) :
  path_compare q p = CompOpp (path_compare p q).
Proof.
  apply list_compare_antisym; [apply string_compare_eq|].
  intros x y. apply string_compare_opp.
Qed.

Lemma path_compare_trans (p q r : path) (c : comparison) :
  path_compare p q = c -> path_compare q r = c -> path_compare p r = c.
Proof.
  apply list_compare_trans.
  - apply string_compare_eq.
  - apply string_compare_trans.
  - intros x y. apply string_compare_opp.
Qed.

Lemma path_le_refl (p : path) : path_le p p.
Proof.
  unfold path_le, path_leb.
  now rewrite (proj2 (path_compare_eq p p) eq_refl).
Qed.

Lemma path_le_total (p q : path) : path_le p q \/ path_le q p.
Proof.
  unfold path_le, path_leb. rewrite (path_compare_opp p q).
  destruct (path_compare p q); simpl; auto.
Qed.

Lemma path_le_antisym (p q : path) : path_le p q -> path_le q p -> p = q.
Proof.
  unfold path_le, path_leb. rewrite (path_compare_opp p q).
  destruct (path_compare p q) eqn:E; simpl; try discriminate.
  intros _ _. now apply path_compare_eq.
Qed.

Lemma path_le_trans (p q r : path) : path_le p q -> path_le q r -> path_le p r.
Proof.
  unfold path_le, path_leb.
  destruct (path_compare p q) eqn:Epq; try discriminate;
    destruct (path_compare q r) eqn:Eqr; try discriminate; intros _ _.
  - apply path_compare_eq in Epq, Eqr. subst.
    now rewrite (proj2 (path_compare_eq r r) eq_refl).
  - apply path_compare_eq in Epq. subst. now rewrite Eqr.
  - apply path_compare_eq in Eqr. subst. now rewrite Epq.
  - now rewrite (path_compare_trans _ _ _ _ Epq Eqr).
Qed.

Lemma insert_sorted_perm (p : path) (l : list path) :
  Permutation (insert_sorted p l) (p :: l).
Proof.
  induction l as [|q l IH]; simpl; [reflexivity|].
  destruct (path_compare p q); try reflexivity;
    (etransitivity; [apply perm_skip, IH | apply perm_swap]).
Qed.

Lemma insert_sorted_sorted (p : path) (l : list path) :
  StronglySorted path_le l -> StronglySorted path_le (insert_sorted p l).
Proof.
  induction 1 as [|q l Hs IH Hq]; simpl.
  - repeat constructor.
  - destruct (path_compare p q) eqn:E.
    + constructor; [exact IH|].
      apply (Permutation_Forall (Permutation_sym (insert_sorted_perm p l))).
      constructor; [|exact Hq].
      apply path_compare_eq in E. subst. apply path_le_refl.
    + assert (Hpq : path_le p q) by (unfold path_le, path_leb; now rewrite E).
      constructor; [now constructor|].
      constructor; [exact Hpq|].
      eapply Forall_impl; [|exact Hq].
      intros r Hr. eapply path_le_trans; eauto.
    + constructor; [exact IH|].
      apply (Permutation_Forall (Permutation_sym (insert_sorted_perm p l))).
      constructor; [|exact Hq].
      unfold path_le, path_leb. rewrite (path_compare_opp p q), E. reflexivity.
Qed.

Lemma fold_insert_perm (l acc : list path) :
  Permutation (fold_left (fun a p => insert_sorted p a) l acc) (acc ++ l).
Proof.
  revert acc. induction l as [|p l IH]; intros acc; simpl.
  - now rewrite app_nil_r.
  - rewrite IH, insert_sorted_perm. apply Permutation_middle.
Qed.

Lemma fold_insert_sorted (l acc : list path) :
  StronglySorted path_le acc ->
  StronglySorted path_le (fold_left (fun a p => insert_sorted p a) l acc).
Proof.
  revert acc. induction l as [|p l IH]; intros acc Hacc; simpl; [exact Hacc|].
  apply IH, insert_sorted_sorted, Hacc.
Qed.

Lemma sorted_perm (l : list path) : Permutation (sorted l) l.
Proof. apply (fold_insert_perm l []). Qed.

Lemma sorted_sorted (l : list path) : StronglySorted path_le (sorted l).
Proof. apply fold_insert_sorted. constructor. Qed.

Lemma sorted_In (l : list path) (p : path) : In p (sorted l) <-> In p l.
Proof.
  split; apply Permutation_in; [|symmetry]; apply sorted_perm.
Qed.

(** A list has one sorted arrangement only. *)
Lemma strongly_sorted_unique (l1 l2 : list path) :
  StronglySorted path_le l1 -> StronglySorted path_le l2 ->
  Permutation l1 l2 -> l1 = l2.
Proof.
  intros H1. revert l2.
  induction H1 as [|a l1 Hs1 IH Ha]; intros l2 H2 Hp.
  - apply Permutation_nil in Hp. now subst.
  - destruct H2 as [|b l2 Hs2 Hb].
    + symmetry in Hp. apply Permutation_nil in Hp. discriminate.
    + assert (Hab : a = b).
      { assert (Ia : In a (b :: l2))
          by (eapply Permutation_in; [exact Hp | now left]).
        assert (Ib : In b (a :: l1))
          by (eapply Permutation_in; [symmetry; exact Hp | now left]).
        destruct Ia as [->|Ia]; [reflexivity|].
        destruct Ib as [->|Ib]; [reflexivity|].
        apply path_le_antisym.
        - rewrite Forall_forall in Ha. now apply Ha.
        - rewrite Forall_forall in Hb. now apply Hb. }
      subst b. f_equal. apply IH; [exact Hs2|].
      eapply Permutation_cons_inv; exact Hp.
Qed.

Lemma sorted_permutation_invariant (l1 l2 : list path) :
  Permutation l1 l2 -> sorted l1 = sorted l2.
Proof.
  intros Hp. apply strongly_sorted_unique; try apply sorted_sorted.
  rewrite !sorted_perm. exact Hp.
Qed.

End PathOrder.

(** ** Running a computation *)

Section Running.

Context {A B : Type}.

Lemma bind_Ret (c : M A) (k : A -> M B) (w w' : World) (a : A) :
  c w = (Ret a, w') -> bind c k w = k a w'.
Proof. unfold bind. now intros ->. Qed.

Lemma bind_Raise (c : M A) (k : A -> M B) (w w' : World) (e : exn) :
  c w = (Raise e, w') -> bind c k w = (Raise e, w').
Proof. unfold bind. now intros ->. Qed.

End Running.

(** ** Strings *)

Section Strings.

Lemma string_app_assoc (a b c : string) : ((a ++ b) ++ c = a ++ (b ++ c))%string.
Proof. induction a as [|x a IH]; simpl; [reflexivity | now rewrite IH]. Qed.

Lemma string_length_app (a b : string) :
  String.length (a ++ b) = (String.length a + String.length b)%nat.
Proof. induction a as [|x a IH]; simpl; [reflexivity | now rewrite IH]. Qed.




Lemma decimal_value_from_app (acc : Z) (a b : string) :
  decimal_value_from acc (a ++ b)
  = decimal_value_from (decimal_value_from acc a) b.
Proof. revert acc. induction a as [|x a IH]; intros acc; simpl; auto. Qed.

Lemma decimal_value_from_digit (acc n : Z) :
  decimal_value_from acc (digit n) = (10 * acc + n mod 10)%Z.
Proof.
  unfold digit. cbn [decimal_value_from]. unfold digit_value.
  pose proof (Z.mod_pos_bound n 10 ltac:(lia)).
  rewrite nat_ascii_embedding by lia. lia.
Qed.

Lemma zero_pad_length (width : nat) (n : Z) :
  String.length (zero_pad width n) = width.
Proof.
  revert n. induction width as [|k IH]; intros n; simpl; [reflexivity|].
  rewrite string_length_app, IH. simpl. lia.
Qed.

(** [zero_pad] writes [n] in decimal, on [width] digits. *)
Lemma zero_pad_value (width : nat) (n : Z) :
  (0 <= n < 10 ^ Z.of_nat width)%Z ->
  decimal_value (zero_pad width n) = n.
Proof.
  unfold decimal_value. revert n.
  induction width as [|k IH]; intros n Hn.
  - simpl in *. lia.
  - cbn [zero_pad]. rewrite decimal_value_from_app.
    rewrite Nat2Z.inj_succ, Z.pow_succ_r in Hn by lia.
    rewrite IH by (split; [apply Z.div_pos; lia | apply Z.div_lt_upper_bound; lia]).
    rewrite decimal_value_from_digit.
    pose proof (Z.div_mod n 10 ltac:(lia)). lia.
Qed.

End Strings.

(** ** Reading a world *)

Section Worlds.

Variables (w : World) (evs : list event) (x : Q) (o : s3_object) (t : node).

Lemma fs_emit : fs (emit evs w) = fs w.
Proof. reflexivity. Qed.
Lemma clock_emit : clock (emit evs w) = clock w.
Proof. reflexivity. Qed.
Lemma tz_emit : tz (emit evs w) = tz w.
Proof. reflexivity. Qed.
Lemma remote_emit : remote (emit evs w) = remote w.
Proof. reflexivity. Qed.
Lemma trace_emit : trace (emit evs w) = trace w ++ evs.
Proof. reflexivity. Qed.
Lemma pending_emit : pending (emit evs w) = pending w.
Proof. reflexivity. Qed.
Lemma next_move_emit : next_move (emit evs w) = next_move w.
Proof. reflexivity. Qed.

Lemma fs_play : fs (play x w) = meanwhile w.
Proof. reflexivity. Qed.
Lemma meanwhile_emit : meanwhile (emit evs w) = meanwhile w.
Proof. reflexivity. Qed.
Lemma clock_play : clock (play x w) = (clock w + x + elapsed (next_move w))%Q.
Proof. reflexivity. Qed.
Lemma tz_play : tz (play x w) = tz w.
Proof. reflexivity. Qed.
Lemma remote_play : remote (play x w) = remote w.
Proof. reflexivity. Qed.
Lemma trace_play : trace (play x w) = trace w.
Proof. reflexivity. Qed.
Lemma pending_play : pending (play x w) = tl (pending w).
Proof. reflexivity. Qed.
Lemma refused_emit : refused (emit evs w) = refused w.
Proof. reflexivity. Qed.
Lemma refused_play : refused (play x w) = refused_meanwhile w.
Proof. reflexivity. Qed.
Lemma refused_meanwhile_emit : refused_meanwhile (emit evs w) = refused_meanwhile w.
Proof. reflexivity. Qed.
Lemma refused_store : refused (store o w) = refused w.
Proof. reflexivity. Qed.
Lemma clock_store : clock (store o w) = clock w.
Proof. reflexivity. Qed.

Lemma fs_store : fs (store o w) = fs w.
Proof. reflexivity. Qed.
Lemma tz_store : tz (store o w) = tz w.
Proof. reflexivity. Qed.
Lemma remote_store : remote (store o w) = o :: remote w.
Proof. reflexivity. Qed.
Lemma trace_store : trace (store o w) = trace w.
Proof. reflexivity. Qed.
Lemma next_move_store : next_move (store o w) = next_move w.
Proof. reflexivity. Qed.

Lemma fs_set_fs : fs (set_fs t w) = Dir 0 (entries t).
Proof. reflexivity. Qed.
Lemma remove_keeps_root (m : Q) (es : list (string * node)) (p : path) :
  Dir m (entries (remove (Dir m es) p)) = remove (Dir m es) p.
Proof. destruct p as [|c [|c' p']]; reflexivity. Qed.
Lemma fs_unlinked (p : path) :
  Dir 0 (entries (remove (fs w) p)) = remove (fs w) p.
Proof. apply remove_keeps_root. Qed.
Lemma meanwhile_unlinked (p : path) :
  Dir 0 (entries (remove (meanwhile w) p)) = remove (meanwhile w) p.
Proof. apply remove_keeps_root. Qed.
Lemma tz_set_fs : tz (set_fs t w) = tz w.
Proof. reflexivity. Qed.
Lemma remote_set_fs : remote (set_fs t w) = remote w.
Proof. reflexivity. Qed.
Lemma trace_set_fs : trace (set_fs t w) = trace w.
Proof. reflexivity. Qed.
Lemma next_move_set_fs : next_move (set_fs t w) = next_move w.
Proof. reflexivity. Qed.

End Worlds.

Create Rewrite HintDb world.

#[export] Hint Rewrite meanwhile_emit fs_emit clock_emit tz_emit remote_emit trace_emit
  pending_emit next_move_emit fs_play clock_play tz_play remote_play trace_play
  pending_play fs_store tz_store remote_store trace_store next_move_store
  fs_set_fs tz_set_fs remote_set_fs trace_set_fs next_move_set_fs
  fs_unlinked meanwhile_unlinked refused_meanwhile_emit refused_emit
  refused_play refused_store clock_store : world.

(** ** The directory tree *)

Section Tree.

Lemma lookup_app (t : node) (p q : path) :
  lookup t (p ++ q) =
  match lookup t p with Some n => lookup n q | None => None end.
Proof.
  revert t. induction p as [|c p IH]; intros t; simpl; [reflexivity|].
  destruct t as [m|m es]; [reflexivity|].
  destruct (assoc c es); [apply IH | reflexivity].
Qed.

Lemma lookup_child (t : node) (p : path) (c : string) m es :
  lookup t p = Some (Dir m es) -> lookup t (p ++ [c]) = assoc c es.
Proof.
  intros H. rewrite lookup_app, H. simpl. now destruct (assoc c es).
Qed.

Lemma lookup_child_inv (t : node) (p : path) (c : string) n :
  lookup t (p ++ [c]) = Some n ->
  exists m es, lookup t p = Some (Dir m es) /\ assoc c es = Some n.
Proof.
  rewrite lookup_app. destruct (lookup t p) as [[m|m es]|]; simpl; try discriminate.
  destruct (assoc c es) eqn:E; [|discriminate].
  intros [= <-]. eauto.
Qed.

Lemma assoc_In (c : string) (es : list (string * node)) n :
  assoc c es = Some n -> In (c, n) es.
Proof.
  induction es as [|[c' n'] es IH]; simpl; [discriminate|].
  destruct (String.eqb c c') eqn:E.
  - apply String.eqb_eq in E. intros [= ->]. subst. now left.
  - intros H. right. now apply IH.
Qed.

Lemma assoc_listed (c : string) (es : list (string * node)) :
  In c (map fst es) -> exists n, assoc c es = Some n.
Proof.
  induction es as [|[c' n'] es IH]; simpl; [tauto|].
  destruct (String.eqb c c') eqn:E; [eauto|].
  intros [->|H]; [|now apply IH].
  now rewrite String.eqb_refl in E.
Qed.

End Tree.

(** ** The scanner *)

Section Scanner.

Variable self : S3Uploader.

(** The inner loop reads the tree and the clock and appends what passes
    the age test; it cannot fail on paths that exist. *)
Lemma inner_loop_eq (w : World) (vs : list path) (acc : list path) :
  (forall v, In v vs -> lookup (fs w) v <> None) ->
  for_fold vs (fun segments video_file =>
    mod_time <- stat_mtime video_file ;;
    now <- time_time ;;
    if Qltb 300 (now - mod_time) then ret (segments ++ [video_file])
    else ret segments) acc w
  = (Ret (acc ++ filter (ready (fs w) (clock w)) vs), w).
Proof.
  revert acc. induction vs as [|v vs IH]; intros acc Hex.
  - simpl. unfold ret. now rewrite app_nil_r.
  - assert (Hv : lookup (fs w) v <> None) by (apply Hex; now left).
    destruct (lookup (fs w) v) as [n|] eqn:E; [clear Hv|congruence].
    cbn [for_fold filter].
    erewrite bind_Ret; cycle 1.
    { erewrite bind_Ret by (unfold stat_mtime; rewrite E; reflexivity).
      erewrite bind_Ret by reflexivity.
      instantiate (1 := w).
      instantiate (1 := if ready (fs w) (clock w) v then acc ++ [v] else acc).
      unfold ready. rewrite E.
      now destruct (Qltb 300 (clock w - st_mtime n)). }
    rewrite IH by (intros; apply Hex; now right).
    destruct (ready (fs w) (clock w) v); [|reflexivity].
    now rewrite <- app_assoc.
Qed.

Lemma videos_in_exist (t : node) (c v : path) :
  In v (videos_in t c) -> lookup t v <> None.
Proof.
  unfold videos_in.
  destruct (lookup t c) as [[m|m es]|] eqn:E; simpl; try tauto.
  rewrite in_map_iff. intros [[f n] [<- Hin]]. simpl.
  rewrite (lookup_child t c f m es E).
  apply filter_In in Hin. destruct Hin as [Hin _].
  destruct (assoc_listed f es) as [n' ->]; [|discriminate].
  now apply (in_map fst) in Hin.
Qed.

Lemma outer_loop_eq (w : World) (cs : list path) (acc : list path) :
  for_fold cs (fun segments camera_dir =>
    d <- is_dir camera_dir ;;
    if negb d then ret segments
    else
      video_files <- glob_mp4 camera_dir ;;
      for_fold video_files (fun segments video_file =>
        mod_time <- stat_mtime video_file ;;
        now <- time_time ;;
        if Qltb 300 (now - mod_time) then ret (segments ++ [video_file])
        else ret segments) segments) acc w
  = (Ret (acc ++ flat_map (fun c => filter (ready (fs w) (clock w))
                                           (videos_in (fs w) c)) cs), w).
Proof.
  revert acc. induction cs as [|c cs IH]; intros acc.
  - simpl. unfold ret. now rewrite app_nil_r.
  - cbn [for_fold flat_map].
    erewrite bind_Ret; cycle 1.
    { instantiate (1 := w).
      instantiate (1 := acc ++ filter (ready (fs w) (clock w))
                                      (videos_in (fs w) c)).
      pose proof (videos_in_exist (fs w) c) as Hex.
      unfold bind at 1. unfold is_dir at 1. unfold videos_in in *.
      destruct (lookup (fs w) c) as [[m|m es]|] eqn:E; simpl.
      - unfold ret. now rewrite app_nil_r.
      - erewrite bind_Ret by (unfold glob_mp4; rewrite E; reflexivity).
        now apply inner_loop_eq.
      - unfold ret. now rewrite app_nil_r. }
    rewrite IH. now rewrite <- app_assoc.
Qed.

(** On a readable root the scan is a pure reading of the tree at one
    instant; it changes nothing and fails on nothing. *)
Lemma find_completed_segments_eq (w : World) m es :
  lookup (fs w) (local_path self) = Some (Dir m es) ->
  find_completed_segments self w
  = (Ret (sorted (scan (fs w) (clock w) (local_path self))), w).
Proof.
  intros Hroot. unfold find_completed_segments.
  unfold bind at 1. unfold iterdir at 1. rewrite Hroot.
  unfold bind at 1. rewrite outer_loop_eq. simpl.
  unfold ret, scan, children. now rewrite Hroot.
Qed.


(** Membership in the scan, entry by entry. *)
Lemma scan_In (t : node) (now : Q) (root p : path) :
  In p (scan t now root) <->
  exists camera filename cm ces n,
    p = root ++ [camera; filename] /\
    lookup t (root ++ [camera]) = Some (Dir cm ces) /\
    lookup t p = Some n /\
    matches_mp4 filename = true /\
    (300 < now - st_mtime n)%Q.
Proof.
  unfold scan. rewrite in_flat_map. split.
  - intros [c [Hc Hp]].
    apply filter_In in Hp. destruct Hp as [Hp Hready].
    unfold children in Hc.
    destruct (lookup t root) as [[rm|rm res]|] eqn:Eroot; simpl in Hc; try tauto.
    apply in_map_iff in Hc. destruct Hc as [[camera cn] [<- Hcin]]. simpl in *.
    unfold videos_in in Hp.
    destruct (lookup t (root ++ [camera])) as [[cm|cm ces]|] eqn:Ecam;
      simpl in Hp; try tauto.
    apply in_map_iff in Hp. destruct Hp as [[filename fn] [<- Hfin]]. simpl in *.
    apply filter_In in Hfin. destruct Hfin as [Hfin Hmp4]. simpl in Hmp4.
    unfold ready in Hready.
    destruct (lookup t ((root ++ [camera]) ++ [filename])) as [n|] eqn:En;
      [|discriminate].
    exists camera, filename, cm, ces, n.
    rewrite <- app_assoc in *. simpl in *.
    repeat split; auto.
    unfold Qltb in Hready. apply negb_true_iff in Hready.
    apply Qnot_le_lt. intros Hle. apply Qle_bool_iff in Hle. congruence.
  - intros (camera & filename & cm & ces & n & -> & Hcam & Hn & Hmp4 & Hage).
    exists (root ++ [camera]). split.
    + destruct (lookup_child_inv t root camera _ Hcam) as (rm & res & Hroot & Hassoc).
      unfold children. rewrite Hroot.
      apply in_map_iff. exists (camera, Dir cm ces). split; [reflexivity|].
      now apply assoc_In.
    + apply filter_In. split.
      * unfold videos_in. rewrite Hcam.
        replace (root ++ [camera; filename])
          with ((root ++ [camera]) ++ [filename])
          by (now rewrite <- app_assoc).
        replace (root ++ [camera; filename])
          with ((root ++ [camera]) ++ [filename]) in Hn
          by (now rewrite <- app_assoc).
        rewrite (lookup_child t (root ++ [camera]) filename cm ces Hcam) in Hn.
        apply in_map_iff. exists (filename, n). split; [reflexivity|].
        apply filter_In. split; [now apply assoc_In | exact Hmp4].
      * unfold ready. rewrite Hn. unfold Qltb. apply negb_true_iff.
        destruct (Qle_bool (now - st_mtime n) 300) eqn:E; [|reflexivity].
        apply Qle_bool_iff in E. exfalso. eapply Qlt_not_le; eauto.
Qed.

End Scanner.

(** ** The upload coordinator *)

Section Coordinator.

Variable self : S3Uploader.
Variable local_file : path.

Lemma skipn_exact {A} (l r : list A) : skipn (List.length l) (l ++ r) = r.
Proof. induction l; simpl; auto. Qed.

Lemma new_events_emitted (w w' : World) (evs : list event) :
  trace w' = trace w ++ evs -> new_events w w' = evs.
Proof. unfold new_events. intros ->. apply skipn_exact. Qed.

Lemma new_events_none (w : World) : new_events w w = [].
Proof. apply new_events_emitted. now rewrite app_nil_r. Qed.

Lemma fromtimestamp_some (t : Q) (w : World) (dt : datetime) :
  localtime (tz w) t = Some dt -> fromtimestamp t w = (Ret dt, w).
Proof. unfold fromtimestamp. now intros ->. Qed.

Lemma fromtimestamp_none (t : Q) (w : World) :
  localtime (tz w) t = None ->
  fromtimestamp t w = (Raise (mkExn ValueError "year is out of range"), w).
Proof. unfold fromtimestamp. now intros ->. Qed.

(** The two statements before the [try] are not protected by it. *)
Lemma upload_file_vanished (w : World) :
  lookup (fs w) local_file = None ->
  upload_file self local_file w
  = (Raise (no_such_file local_file), w).
Proof.
  intros H. unfold upload_file.
  erewrite bind_Raise; [reflexivity|].
  unfold stat_mtime. now rewrite H.
Qed.

Lemma upload_file_bad_date (w : World) n :
  lookup (fs w) local_file = Some n ->
  localtime (tz w) (st_mtime n) = None ->
  upload_file self local_file w
  = (Raise (mkExn ValueError "year is out of range"), w).
Proof.
  intros H Hd. unfold upload_file.
  erewrite bind_Ret by (unfold stat_mtime; rewrite H; reflexivity).
  apply bind_Raise. now apply fromtimestamp_none.
Qed.

(** [upload_file], statement by statement, once the file has been
    found and dated. *)
Lemma upload_file_eq (w : World) n dt :
  lookup (fs w) local_file = Some n ->
  localtime (tz w) (st_mtime n) = Some dt ->
  let s3_key := s3_key_of (name (parent local_file)) dt (name local_file) in
  upload_file self local_file w =
  match s3_upload_file local_file (bucket self) s3_key
          (emit [EvLog INFO ("Uploading " ++ str local_file ++ " to " ++ s3_key)] w)
  with
  | (Raise e, w1) =>
      if isinstance_Exception e then
        (Ret false,
         emit [EvLog ERROR ("Upload failed for " ++ str local_file ++ ": " ++ exc_msg e)] w1)
      else (Raise e, w1)
  | (Ret _, w1) =>
      let w2 := emit [EvLog INFO ("Upload successful: " ++ s3_key)] w1 in
      if delete_after_upload self then
        match unlink local_file w2 with
        | (Ret _, w3) =>
            (Ret true,
             emit [EvLog INFO ("Deleted local file: " ++ str local_file)] w3)
        | (Raise e, w3) =>
            if isinstance_Exception e then
              (Ret false,
               emit [EvLog ERROR ("Upload failed for " ++ str local_file ++ ": " ++ exc_msg e)] w3)
            else (Raise e, w3)
        end
      else (Ret true, w2)
  end.
Proof.
  intros H Hd s3_key. unfold upload_file.
  erewrite bind_Ret by (unfold stat_mtime; rewrite H; reflexivity).
  rewrite (bind_Ret _ _ _ _ _ (fromtimestamp_some _ _ _ Hd)).
  fold s3_key.
  unfold try_except, bind, logger_info, logger_error, ret.
  destruct (s3_upload_file _ _ _ _) as [[u|e] w1]; [|reflexivity].
  destruct (delete_after_upload self); [|reflexivity].
  destruct (unlink _ _) as [[u'|e] w3]; reflexivity.
Qed.

Lemma s3_upload_file_ack (w : World) m bkt key :
  lookup (fs w) local_file = Some (File m) ->
  s3_fault (next_move w) = None ->
  s3_upload_file local_file bkt key w
  = (Ret tt, emit [EvS3Ack local_file bkt key]
                  (store (mkObject bkt key local_file)
                         (play 0 (emit [EvS3Call local_file bkt key] w)))).
Proof. intros H Hf. unfold s3_upload_file. now rewrite H, Hf. Qed.

Lemma s3_upload_file_fault (w : World) m bkt key e :
  lookup (fs w) local_file = Some (File m) ->
  s3_fault (next_move w) = Some e ->
  s3_upload_file local_file bkt key w
  = (Raise e, play 0 (emit [EvS3Call local_file bkt key] w)).
Proof. intros H Hf. unfold s3_upload_file. now rewrite H, Hf. Qed.

End Coordinator.

(** ** Claims about [upload_file] *)

(** The events of a call, as a list; a list without the event looked for. *)
Ltac events_norm :=
  unfold is_a_directory, no_such_file, not_a_directory, os_error;
  cbn [isinstance_Exception exc_cls fst snd]; unfold new_events;
  autorewrite with world;
  rewrite <- ?app_assoc, ?skipn_exact; cbn [app].

Ltac trace_norm := events_norm; cbn [In].

Ltac no_such_event H :=
  cbn [In] in H; repeat (destruct H as [H|H]; [discriminate H|]); destruct H.

(** C1. Whenever the store call of [upload_file] fails with an error
    (any [Exception]: network, authentication, store side or other), the
    call returns [False], no exception leaves it, and the code deletes
    nothing: it performs no [unlink], and the tree is exactly as the
    environment left it during the blocked call, so the local file is
    still where it was if nobody else removed it. *)
Theorem upload_failure_returns_false_and_keeps_file
    (self : S3Uploader) (local_file : path) (w : World)
    (m : Q) (dt : datetime) (e : exn) :
  lookup (fs w) local_file = Some (File m) ->
  localtime (tz w) m = Some dt ->
  s3_fault (next_move w) = Some e ->
  isinstance_Exception e = true ->
  exists w',
    upload_file self local_file w = (Ret false, w') /\
    fs w' = meanwhile w /\
    (forall q, ~ In (EvUnlink q) (new_events w w')) /\
    (forall n, lookup (meanwhile w) local_file = Some n ->
               lookup (fs w') local_file = Some n) /\
    remote w' = remote w.
Proof.
  intros Hfile Hdate Hfault Hexc.
  rewrite (upload_file_eq self local_file w (File m) dt Hfile Hdate).
  cbv zeta.
  erewrite s3_upload_file_fault by (autorewrite with world; eauto).
  rewrite Hexc. eexists. split; [reflexivity|].
  autorewrite with world. repeat split.
  - intros q. trace_norm. intros H. no_such_event H.
  - intros n Hn. exact Hn.
Qed.

Lemma upload_failure_returns_false_and_keeps_file_witness :
  exists w',
    upload_file uploader the_segment (world_with [store_error]) = (Ret false, w') /\
    fs w' = meanwhile (world_with [store_error]) /\
    (forall q, ~ In (EvUnlink q) (new_events (world_with [store_error]) w')) /\
    (forall n, lookup (meanwhile (world_with [store_error])) the_segment = Some n ->
               lookup (fs w') the_segment = Some n) /\
    remote w' = remote (world_with [store_error]).
Proof.
  apply (upload_failure_returns_false_and_keeps_file uploader the_segment
           (world_with [store_error]) noon
           (mkDatetime 2024 1 15 12 0 0 0) (mkExn ClientError "AccessDenied"));
    reflexivity.
Defined.

(** C2. In every run of [upload_file] a deletion comes after the store
    has acknowledged the upload of that very file: if the call unlinks
    anything at all, it is its own argument, the events of the call are,
    in this order, the store call, its acknowledgement and only then the
    unlink, and the object is in the bucket.  The code has one thread, so
    the blocking store call has returned before the next statement
    runs. *)
Theorem unlink_only_after_acknowledged_upload
    (self : S3Uploader) (local_file : path) (w : World) (q : path) :
  In (EvUnlink q) (new_events w (snd (upload_file self local_file w))) ->
  q = local_file /\
  exists key m1 m2 m3,
    new_events w (snd (upload_file self local_file w)) =
      [EvLog INFO m1;
       EvS3Call local_file (bucket self) key;
       EvS3Ack local_file (bucket self) key;
       EvLog INFO m2;
       EvUnlink local_file;
       EvLog INFO m3] /\
    In (mkObject (bucket self) key local_file)
       (remote (snd (upload_file self local_file w))).
Proof.
  destruct (lookup (fs w) local_file) as [n|] eqn:E.
  2:{ rewrite upload_file_vanished by exact E. simpl.
      rewrite new_events_none. intros []. }
  destruct (localtime (tz w) (st_mtime n)) as [dt|] eqn:Ed.
  2:{ rewrite (upload_file_bad_date self local_file w n E Ed). simpl.
      rewrite new_events_none. intros []. }
  rewrite (upload_file_eq self local_file w n dt E Ed). cbv zeta.
  destruct n as [m|m es].
  - destruct (s3_fault (next_move w)) as [e|] eqn:Ef.
    + erewrite s3_upload_file_fault by (autorewrite with world; eauto).
      destruct (isinstance_Exception e); trace_norm; intros H; no_such_event H.
    + erewrite s3_upload_file_ack by (autorewrite with world; eauto).
      destruct (delete_after_upload self).
      * unfold unlink. autorewrite with world.
        destruct (lookup (meanwhile w) local_file)
          as [[m'|m' es']|].
        -- destruct (refused_meanwhile w local_file) as [r|].
           ++ destruct (isinstance_Exception (refusal_error r local_file));
                trace_norm; intros H; no_such_event H.
           ++ trace_norm. intros H.
              repeat (destruct H as [H|H]; try discriminate H).
              ** injection H as <-. split; [reflexivity|].
                 do 4 eexists. split; [reflexivity|]. now left.
              ** destruct H.
        -- trace_norm. intros H; no_such_event H.
        -- trace_norm. intros H; no_such_event H.
      * trace_norm. intros H; no_such_event H.
  - unfold s3_upload_file. autorewrite with world. rewrite E.
    trace_norm. intros H; no_such_event H.
Qed.

Lemma unlink_only_after_acknowledged_upload_witness :
  the_segment = the_segment /\
  exists key m1 m2 m3,
    new_events (world_with []) (snd (upload_file uploader the_segment (world_with []))) =
      [EvLog INFO m1;
       EvS3Call the_segment (bucket uploader) key;
       EvS3Ack the_segment (bucket uploader) key;
       EvLog INFO m2;
       EvUnlink the_segment;
       EvLog INFO m3] /\
    In (mkObject (bucket uploader) key the_segment)
       (remote (snd (upload_file uploader the_segment (world_with [])))).
Proof.
  apply (unlink_only_after_acknowledged_upload uploader the_segment
           (world_with []) the_segment).
  vm_compute. do 4 right. now left.
Defined.

Lemma assoc_remove_entry (c : string) (es : list (string * node)) :
  assoc c (remove_entry c es) = None.
Proof.
  induction es as [|[c' n] es IH]; simpl; [reflexivity|].
  destruct (String.eqb c c') eqn:E; [exact IH|].
  simpl. now rewrite E.
Qed.

Lemma assoc_update_entry (c : string) (f : node -> node)
    (es : list (string * node)) :
  assoc c (update_entry c f es) = option_map f (assoc c es).
Proof.
  induction es as [|[c' n] es IH]; simpl; [reflexivity|].
  destruct (String.eqb c c') eqn:E; simpl; rewrite E; [reflexivity | exact IH].
Qed.

(** After [unlink] the path names nothing. *)
Lemma lookup_remove (t : node) (p : path) :
  p <> [] -> lookup (remove t p) p = None.
Proof.
  revert t. induction p as [|c p IH]; intros t Hp; [congruence|].
  destruct p as [|c' p'].
  - destruct t as [m|m es]; simpl; [reflexivity|].
    now rewrite assoc_remove_entry.
  - destruct t as [m|m es]; [reflexivity|].
    cbn [remove lookup]. rewrite assoc_update_entry.
    destruct (assoc c es) as [n|]; simpl; [|reflexivity].
    apply IH. discriminate.
Qed.

(** C3, at a failing input.  The segment is found by a scan and is gone
    when [upload_file] is called on it: [local_file.stat()] stands before
    the [try], and its [FileNotFoundError] leaves [upload_file]. *)
Theorem upload_file_raises_for_vanished_file :
  In the_segment
     (match fst (find_completed_segments uploader (world_with [])) with
      | Ret segments => segments
      | Raise _ => []
      end) /\
  upload_file uploader the_segment
    (set_fs (remove (fs (world_with [])) the_segment) (world_with []))
  = (Raise (mkExn FileNotFoundError
              "[Errno 2] No such file or directory: '/srv/segments/front-door/20240115_120000.mp4'"),
     set_fs (remove (fs (world_with [])) the_segment) (world_with [])).
Proof. split; [vm_compute; now left | reflexivity]. Qed.

(** C6 as stated fails: the store acknowledges the upload, the file is
    removed by somebody else while the call is blocked, deletion is
    enabled, and [upload_file] returns [False]. *)
Lemma acknowledged_upload_may_return_false :
  let r := upload_file uploader the_segment
             (world_with [removed_meanwhile the_segment]) in
  s3_fault (next_move (world_with [removed_meanwhile the_segment])) = None /\
  In (EvS3Ack the_segment "test-bucket"
        "front-door/2024/01/15/20240115_120000.mp4") (trace (snd r)) /\
  fst r = Ret false.
Proof. vm_compute. repeat split. do 2 right. now left. Qed.

(** C6, amended.  Whenever the store acknowledges the upload: with
    [delete_after_upload] off, [upload_file] returns [True] and deletes
    nothing, the tree being as the environment left it during the store
    call, so that the local file still exists unless somebody else
    removed it; with [delete_after_upload] on, when the deletion succeeds
    (the file is still a regular file at its path when the store call
    returns, and the system does not refuse to remove it), [upload_file]
    returns [True] and the file no longer exists.  In both cases the
    object is in the bucket. *)
Theorem upload_success_deletes_iff_enabled
    (self : S3Uploader) (local_file : path) (w : World)
    (m : Q) (dt : datetime) :
  lookup (fs w) local_file = Some (File m) ->
  localtime (tz w) m = Some dt ->
  s3_fault (next_move w) = None ->
  (delete_after_upload self = false ->
   exists w',
     upload_file self local_file w = (Ret true, w') /\
     fs w' = meanwhile w /\
     (forall q, ~ In (EvUnlink q) (new_events w w')) /\
     (forall n, lookup (meanwhile w) local_file = Some n ->
                lookup (fs w') local_file = Some n) /\
     In (mkObject (bucket self)
           (s3_key_of (name (parent local_file)) dt (name local_file)) local_file)
        (remote w')) /\
  (delete_after_upload self = true ->
   forall m',
     lookup (meanwhile w) local_file = Some (File m') ->
     refused_meanwhile w local_file = None ->
     exists w',
       upload_file self local_file w = (Ret true, w') /\
       lookup (fs w') local_file = None /\
       In (mkObject (bucket self)
             (s3_key_of (name (parent local_file)) dt (name local_file)) local_file)
          (remote w')).
Proof.
  intros Hfile Hdate Hack.
  rewrite (upload_file_eq self local_file w (File m) dt Hfile Hdate).
  cbv zeta.
  erewrite s3_upload_file_ack by (autorewrite with world; eauto).
  split.
  - intros ->. eexists. split; [reflexivity|].
    autorewrite with world. repeat split.
    + intros q. trace_norm. intros H. no_such_event H.
    + intros n Hn. exact Hn.
    + now left.
  - intros -> m' Hstill Hfree.
    assert (Hp : local_file <> []) by (intros ->; discriminate Hstill).
    unfold unlink. autorewrite with world. rewrite Hstill, Hfree.
    eexists. split; [reflexivity|]. autorewrite with world. split.
    + now apply lookup_remove.
    + now left.
Qed.

Lemma upload_success_deletes_iff_enabled_witness :
  (delete_after_upload uploader = false ->
   exists w',
     upload_file uploader the_segment (world_with []) = (Ret true, w') /\
     fs w' = meanwhile (world_with []) /\
     (forall q, ~ In (EvUnlink q) (new_events (world_with []) w')) /\
     (forall n, lookup (meanwhile (world_with [])) the_segment = Some n ->
                lookup (fs w') the_segment = Some n) /\
     In (mkObject (bucket uploader)
           (s3_key_of (name (parent the_segment)) (mkDatetime 2024 1 15 12 0 0 0)
                      (name the_segment)) the_segment)
        (remote w')) /\
  (delete_after_upload uploader = true ->
   forall m',
     lookup (meanwhile (world_with [])) the_segment = Some (File m') ->
     refused_meanwhile (world_with []) the_segment = None ->
     exists w',
       upload_file uploader the_segment (world_with []) = (Ret true, w') /\
       lookup (fs w') the_segment = None /\
       In (mkObject (bucket uploader)
             (s3_key_of (name (parent the_segment)) (mkDatetime 2024 1 15 12 0 0 0)
                        (name the_segment)) the_segment)
          (remote w')).
Proof.
  apply (upload_success_deletes_iff_enabled uploader the_segment (world_with [])
           noon (mkDatetime 2024 1 15 12 0 0 0));
    reflexivity.
Defined.

(** The two halves at work: with deletion on the segment is uploaded and
    gone; with deletion off it is uploaded and still there. *)
Example upload_then_delete :
  let r := upload_file uploader the_segment (world_with []) in
  fst r = Ret true /\ lookup (fs (snd r)) the_segment = None /\
  map obj_key (remote (snd r)) = ["front-door/2024/01/15/20240115_120000.mp4"].
Proof. vm_compute. repeat split. Qed.

Example upload_and_keep :
  let r := upload_file uploader_keeping the_segment (world_with []) in
  fst r = Ret true /\
  lookup (fs (snd r)) the_segment = Some (File noon) /\
  map obj_key (remote (snd r)) = ["front-door/2024/01/15/20240115_120000.mp4"].
Proof. vm_compute. repeat split. Qed.

(** With deletion off the call returns [True] even when somebody else
    removed the file during the upload. *)
Example upload_and_keep_removed_meanwhile :
  let r := upload_file uploader_keeping the_segment
             (world_with [removed_meanwhile the_segment]) in
  fst r = Ret true /\ lookup (fs (snd r)) the_segment = None.
Proof. vm_compute. repeat split. Qed.

(** The file system turns read-only during the upload: the object is
    stored, the removal is refused, [upload_file] returns [False] and the
    file is still there. *)
Example refused_removal_returns_false :
  let r := upload_file uploader the_segment (world_with [read_only_meanwhile]) in
  fst r = Ret false /\
  lookup (fs (snd r)) the_segment = Some (File noon) /\
  map obj_key (remote (snd r)) = ["front-door/2024/01/15/20240115_120000.mp4"] /\
  last (trace (snd r)) (EvSleep 0)
  = EvLog ERROR "Upload failed for /srv/segments/front-door/20240115_120000.mp4: [Errno 30] Read-only file system: '/srv/segments/front-door/20240115_120000.mp4'".
Proof. vm_compute. repeat split. Qed.

(** C10. When the store acknowledges the upload and the deletion that
    follows raises (the file is no longer a regular file at its path when
    the store call returns, for instance because it vanished meanwhile),
    [upload_file] returns [False] although the object has been written:
    [False] does not mean that nothing reached the store. *)
Theorem false_after_acknowledged_upload
    (self : S3Uploader) (local_file : path) (w : World)
    (m : Q) (dt : datetime) :
  lookup (fs w) local_file = Some (File m) ->
  localtime (tz w) m = Some dt ->
  s3_fault (next_move w) = None ->
  delete_after_upload self = true ->
  (forall m', lookup (meanwhile w) local_file <> Some (File m')) ->
  exists w',
    upload_file self local_file w = (Ret false, w') /\
    In (mkObject (bucket self)
          (s3_key_of (name (parent local_file)) dt (name local_file)) local_file)
       (remote w') /\
    In (EvS3Ack local_file (bucket self)
          (s3_key_of (name (parent local_file)) dt (name local_file)))
       (new_events w w') /\
    (forall q, ~ In (EvUnlink q) (new_events w w')).
Proof.
  intros Hfile Hdate Hack Hdel Hgone.
  rewrite (upload_file_eq self local_file w (File m) dt Hfile Hdate).
  cbv zeta.
  erewrite s3_upload_file_ack by (autorewrite with world; eauto).
  rewrite Hdel. unfold unlink. autorewrite with world.
  destruct (lookup (meanwhile w) local_file) as [[m'|m' es']|] eqn:E.
  - now destruct (Hgone m').
  - eexists. split; [reflexivity|]. repeat split.
    + autorewrite with world. now left.
    + trace_norm. do 2 right. now left.
    + intros q. trace_norm. intros H. no_such_event H.
  - eexists. split; [reflexivity|]. repeat split.
    + autorewrite with world. now left.
    + trace_norm. do 2 right. now left.
    + intros q. trace_norm. intros H. no_such_event H.
Qed.

Lemma false_after_acknowledged_upload_witness :
  exists w',
    upload_file uploader the_segment (world_with [removed_meanwhile the_segment])
    = (Ret false, w') /\
    In (mkObject (bucket uploader)
          (s3_key_of (name (parent the_segment)) (mkDatetime 2024 1 15 12 0 0 0)
                     (name the_segment)) the_segment)
       (remote w') /\
    In (EvS3Ack the_segment (bucket uploader)
          (s3_key_of (name (parent the_segment)) (mkDatetime 2024 1 15 12 0 0 0)
                     (name the_segment)))
       (new_events (world_with [removed_meanwhile the_segment]) w') /\
    (forall q, ~ In (EvUnlink q)
                 (new_events (world_with [removed_meanwhile the_segment]) w')).
Proof.
  apply (false_after_acknowledged_upload uploader the_segment
           (world_with [removed_meanwhile the_segment]) noon
           (mkDatetime 2024 1 15 12 0 0 0));
    try reflexivity.
  intros m'. vm_compute. discriminate.
Defined.

(** ** The remote object key *)

Section Dates.

Local Open Scope Z_scope.

Lemma civil_from_days_ranges (z : Z) :
  let '(y, m, d) := civil_from_days z in 1 <= m <= 12 /\ 1 <= d <= 31.
Proof.
  unfold civil_from_days.
  set (z' := z + 719468).
  set (era := z' / 146097).
  set (doe := z' - era * 146097).
  assert (Hdoe : 0 <= doe <= 146096).
  { unfold doe, era.
    pose proof (Z.div_mod z' 146097 ltac:(lia)).
    pose proof (Z.mod_pos_bound z' 146097 ltac:(lia)). lia. }
  clearbody doe. clear z' era.
  set (yoe := (doe - doe / 1460 + doe / 36524 - doe / 146096) / 365).
  set (doy := doe - (365 * yoe + yoe / 4 - yoe / 100)).
  assert (Hdoy : 0 <= doy <= 365).
  { unfold doy, yoe. Z.to_euclidean_division_equations; lia. }
  clearbody doy.
  set (mp := (5 * doy + 2) / 153).
  assert (0 <= mp <= 11) by (unfold mp; Z.to_euclidean_division_equations; lia).
  destruct (mp <? 10) eqn:E; [apply Z.ltb_lt in E | apply Z.ltb_ge in E];
    (split; [lia|]); unfold mp in *; Z.to_euclidean_division_equations; lia.
Qed.

(** A date [localtime] gives is a calendar date of years 1 to 9999. *)
Lemma localtime_ranges (offset : Z -> Z) (t : Q) (dt : datetime) :
  localtime offset t = Some dt ->
  1 <= year dt <= 9999 /\ 1 <= month dt <= 12 /\ 1 <= day dt <= 31.
Proof.
  unfold localtime.
  set (us := round_half_even (t * 1000000)).
  set (local := us / 1000000 + offset (us / 1000000)).
  pose proof (civil_from_days_ranges (local / 86400)) as Hr.
  destruct (civil_from_days (local / 86400)) as [[y m] d].
  destruct ((y <? 1) || (9999 <? y)) eqn:E; [discriminate|].
  intros [= <-]. simpl.
  apply orb_false_iff in E. destruct E as [E1 E2].
  apply Z.ltb_ge in E1, E2. lia.
Qed.

End Dates.

(** C4. The key [upload_file] hands to the store is
    [{camera}/{year}/{month}/{day}/{filename}]: camera is the name of the
    parent directory, filename the base name, and year, month and day are
    those of the modification time (local time), written in decimal on
    four, two and two digits.  It is a function of these five values only:
    two calls, on whatever uploaders, machines and paths, that agree on
    them use the same key. *)
Theorem remote_key_is_camera_date_filename
    (self1 self2 : S3Uploader) (p1 p2 : path) (w1 w2 : World)
    (n1 n2 : node) (dt1 dt2 : datetime)
    (f1 f2 : path) (b1 b2 k1 k2 : string) :
  lookup (fs w1) p1 = Some n1 ->
  localtime (tz w1) (st_mtime n1) = Some dt1 ->
  In (EvS3Call f1 b1 k1) (new_events w1 (snd (upload_file self1 p1 w1))) ->
  lookup (fs w2) p2 = Some n2 ->
  localtime (tz w2) (st_mtime n2) = Some dt2 ->
  In (EvS3Call f2 b2 k2) (new_events w2 (snd (upload_file self2 p2 w2))) ->
  k1 = remote_object_key (name (parent p1)) (year dt1) (month dt1) (day dt1)
                         (name p1) /\
  (String.length (zero_pad 4 (year dt1)) = 4%nat /\
   decimal_value (zero_pad 4 (year dt1)) = year dt1) /\
  (String.length (zero_pad 2 (month dt1)) = 2%nat /\
   decimal_value (zero_pad 2 (month dt1)) = month dt1) /\
  (String.length (zero_pad 2 (day dt1)) = 2%nat /\
   decimal_value (zero_pad 2 (day dt1)) = day dt1) /\
  (name (parent p1) = name (parent p2) -> name p1 = name p2 ->
   year dt1 = year dt2 -> month dt1 = month dt2 -> day dt1 = day dt2 ->
   k1 = k2).
Proof.
  assert (Hkey : forall self p w n dt f b k,
            lookup (fs w) p = Some n ->
            localtime (tz w) (st_mtime n) = Some dt ->
            In (EvS3Call f b k) (new_events w (snd (upload_file self p w))) ->
            k = remote_object_key (name (parent p)) (year dt) (month dt) (day dt)
                                  (name p)).
  { intros self p w n dt f b k Hn Hd.
    rewrite (upload_file_eq self p w n dt Hn Hd). cbv zeta.
    assert (Hshape : s3_key_of (name (parent p)) dt (name p)
                     = remote_object_key (name (parent p)) (year dt) (month dt)
                                         (day dt) (name p)).
    { unfold s3_key_of, remote_object_key, strftime_Ymd.
      now rewrite !string_app_assoc. }
    rewrite Hshape.
    set (key := remote_object_key _ _ _ _ _).
    assert (Hpick : forall evs,
              In (EvS3Call f b k) evs ->
              Forall (fun ev => match ev with
                                | EvS3Call _ _ k' => k' = key
                                | _ => True
                                end) evs ->
              k = key).
    { intros evs Hin Hall. rewrite Forall_forall in Hall.
      apply (Hall _ Hin). }
    destruct n as [m|m es].
    - destruct (s3_fault (next_move w)) as [e|] eqn:Ef.
      + erewrite s3_upload_file_fault by (autorewrite with world; eauto).
        destruct (isinstance_Exception e); events_norm; intros H;
          apply (Hpick _ H); repeat constructor.
      + erewrite s3_upload_file_ack by (autorewrite with world; eauto).
        destruct (delete_after_upload self).
        * unfold unlink. autorewrite with world.
          destruct (lookup (meanwhile w) p) as [[m'|m' es']|];
            [destruct (refused_meanwhile w p) as [r|];
             [destruct (isinstance_Exception (refusal_error r p))|]| |];
            events_norm; intros H; apply (Hpick _ H); repeat constructor.
        * events_norm; intros H; apply (Hpick _ H); repeat constructor.
    - unfold s3_upload_file. autorewrite with world. rewrite Hn.
      events_norm. intros H; apply (Hpick _ H); repeat constructor. }
  intros Hn1 Hd1 Hc1 Hn2 Hd2 Hc2.
  pose proof (Hkey _ _ _ _ _ _ _ _ Hn1 Hd1 Hc1) as E1.
  pose proof (Hkey _ _ _ _ _ _ _ _ Hn2 Hd2 Hc2) as E2.
  destruct (localtime_ranges _ _ _ Hd1) as (Hy & Hm & Hday).
  split; [exact E1|].
  repeat split; try apply zero_pad_length;
    try (apply zero_pad_value; simpl; lia).
  intros Hc Hf Hyy Hmm Hdd. rewrite E1, E2. now rewrite Hc, Hf, Hyy, Hmm, Hdd.
Qed.

(** The example of the specification, and the same local date on a
    machine in another time zone. *)
Lemma remote_key_is_camera_date_filename_witness :
  "front-door/2024/01/15/20240115_120000.mp4"
  = remote_object_key (name (parent the_segment)) 2024 1 15 (name the_segment) /\
  (String.length (zero_pad 4 2024) = 4%nat /\ decimal_value (zero_pad 4 2024) = 2024%Z) /\
  (String.length (zero_pad 2 1) = 2%nat /\ decimal_value (zero_pad 2 1) = 1%Z) /\
  (String.length (zero_pad 2 15) = 2%nat /\ decimal_value (zero_pad 2 15) = 15%Z) /\
  (name (parent the_segment) = name (parent the_segment) ->
   name the_segment = name the_segment ->
   2024%Z = 2024%Z -> 1%Z = 1%Z -> 15%Z = 15%Z ->
   "front-door/2024/01/15/20240115_120000.mp4"
   = "front-door/2024/01/15/20240115_120000.mp4").
Proof.
  apply (remote_key_is_camera_date_filename
           uploader uploader_keeping the_segment the_segment
           (world_with []) (two_hours_east [] (noon - 7200))
           (File noon) (File (noon - 7200))
           (mkDatetime 2024 1 15 12 0 0 0) (mkDatetime 2024 1 15 12 0 0 0)
           the_segment the_segment "test-bucket" "test-bucket").
  - reflexivity.
  - reflexivity.
  - vm_compute. right. now left.
  - reflexivity.
  - vm_compute. reflexivity.
  - vm_compute. right. now left.
Defined.

(** ** The order of directory listings *)

Section Listings.

Lemma nodupb_NoDup (l : list string) : nodupb l = true -> NoDup l.
Proof.
  induction l as [|x l IH]; simpl; [constructor|].
  rewrite andb_true_iff, negb_true_iff. intros [Hx Hl].
  constructor; [|now apply IH].
  intros Hin.
  assert (existsb (String.eqb x) l = true); [|congruence].
  apply existsb_exists. exists x. split; [exact Hin | apply String.eqb_refl].
Qed.

Lemma well_listed_names (m : Q) (es : list (string * node)) :
  well_listed (Dir m es) = true -> NoDup (map fst es).
Proof.
  simpl. rewrite andb_true_iff. intros [H _]. now apply nodupb_NoDup.
Qed.

Lemma well_listed_child (m : Q) (es : list (string * node)) (c : string) (n : node) :
  well_listed (Dir m es) = true -> assoc c es = Some n -> well_listed n = true.
Proof.
  simpl. rewrite andb_true_iff. intros [_ Hall] Hassoc.
  apply assoc_In in Hassoc.
  induction es as [|e es IH]; [destruct Hassoc|].
  apply andb_true_iff in Hall. destruct Hall as [He Hes].
  destruct Hassoc as [->|Hin]; [exact He | now apply IH].
Qed.

Lemma well_listed_lookup (t : node) (p : path) (n : node) :
  well_listed t = true -> lookup t p = Some n -> well_listed n = true.
Proof.
  revert t. induction p as [|c p IH]; intros t Ht; simpl.
  - now intros [= <-].
  - destruct t as [m|m es]; [discriminate|].
    destruct (assoc c es) as [n'|] eqn:E; [|discriminate].
    apply IH. eapply well_listed_child; eauto.
Qed.

Lemma NoDup_map_filter {A B} (g : A -> B) (f : A -> bool) (l : list A) :
  NoDup (map g l) -> NoDup (map g (filter f l)).
Proof.
  induction l as [|a l IH]; simpl; [auto|].
  intros H. inversion H as [|x l' Hnin Hl]; subst.
  destruct (f a); simpl; [|now apply IH].
  constructor; [|now apply IH].
  intros Hin. apply Hnin.
  rewrite in_map_iff in *. destruct Hin as [y [Hy Hin]].
  exists y. split; [exact Hy|]. now apply filter_In in Hin.
Qed.

Lemma NoDup_under (p : path) (names : list string) :
  NoDup names -> NoDup (map (fun c => p ++ [c]) names).
Proof.
  intros H. apply NoDup_map_NoDup_ForallPairs; [|exact H].
  intros x y _ _ Heq. apply app_inv_head in Heq. now injection Heq.
Qed.

Lemma NoDup_flat_map {A B} (f : A -> list B) (l : list A) :
  NoDup l ->
  (forall x, In x l -> NoDup (f x)) ->
  (forall x y b, In x l -> In y l -> In b (f x) -> In b (f y) -> x = y) ->
  NoDup (flat_map f l).
Proof.
  induction 1 as [|a l Hnin Hl IH]; intros Hf Hdisj; simpl; [constructor|].
  apply NoDup_app.
  - apply Hf. now left.
  - apply IH.
    + intros x Hx. apply Hf. now right.
    + intros x y b Hx Hy. apply Hdisj; now right.
  - intros b Hb Hb'. apply in_flat_map in Hb'. destruct Hb' as [y [Hy Hby]].
    assert (a = y) by (apply (Hdisj a y b); auto; [now left | now right]).
    subst y. contradiction.
Qed.

Lemma children_NoDup (t : node) (p : path) :
  well_listed t = true -> NoDup (children t p).
Proof.
  intros Ht. unfold children.
  destruct (lookup t p) as [[m|m es]|] eqn:E; try constructor.
  rewrite <- (map_map fst (fun c => p ++ [c])).
  apply NoDup_under. eapply well_listed_names, well_listed_lookup; eauto.
Qed.

Lemma videos_in_NoDup (t : node) (p : path) :
  well_listed t = true -> NoDup (videos_in t p).
Proof.
  intros Ht. unfold videos_in.
  destruct (lookup t p) as [[m|m es]|] eqn:E; try constructor.
  rewrite <- (map_map fst (fun c => p ++ [c])).
  apply NoDup_under, NoDup_map_filter.
  eapply well_listed_names, well_listed_lookup; eauto.
Qed.

Lemma videos_in_prefix (t : node) (c p : path) :
  In p (videos_in t c) -> exists f, p = c ++ [f].
Proof.
  unfold videos_in.
  destruct (lookup t c) as [[m|m es]|]; simpl; try tauto.
  rewrite in_map_iff. intros [e [<- _]]. eauto.
Qed.

(** In a tree that lists no name twice the scan finds no path twice. *)
Lemma scan_NoDup (t : node) (now : Q) (root : path) :
  well_listed t = true -> NoDup (scan t now root).
Proof.
  intros Ht. unfold scan. apply NoDup_flat_map.
  - now apply children_NoDup.
  - intros c _. apply NoDup_filter. now apply videos_in_NoDup.
  - intros c1 c2 p _ _ H1 H2.
    apply filter_In in H1, H2. destruct H1 as [H1 _], H2 as [H2 _].
    apply videos_in_prefix in H1, H2.
    destruct H1 as [f1 ->], H2 as [f2 H2].
    now apply app_inj_tail in H2.
Qed.

(** The scan sees the tree through [stat] only. *)
Lemma scan_In_stat (t t' : node) (now : Q) (root p : path) :
  (forall q, stat t' q = stat t q) ->
  In p (scan t now root) -> In p (scan t' now root).
Proof.
  intros Hstat. rewrite !scan_In.
  intros (camera & filename & cm & ces & n & -> & Hcam & Hn & Hmp4 & Hage).
  pose proof (Hstat (root ++ [camera])) as Sc.
  pose proof (Hstat (root ++ [camera; filename])) as Sn.
  unfold stat in Sc, Sn. rewrite Hcam in Sc. rewrite Hn in Sn.
  destruct (lookup t' (root ++ [camera])) as [[cm'|cm' ces']|] eqn:Ec';
    try discriminate.
  destruct (lookup t' (root ++ [camera; filename])) as [n'|] eqn:En';
    [|discriminate].
  injection Sn as _ Hm.
  exists camera, filename, cm', ces', n'.
  repeat split; try assumption; try reflexivity. now rewrite Hm.
Qed.

(** Two trees that list no name twice and show the same through [stat]
    (the same entries, in whatever order) give the same segments. *)
Lemma scan_relisted (t t' : node) (now : Q) (root : path) :
  well_listed t = true -> well_listed t' = true ->
  (forall q, stat t' q = stat t q) ->
  sorted (scan t' now root) = sorted (scan t now root).
Proof.
  intros Ht Ht' Hstat. apply sorted_permutation_invariant.
  apply NoDup_Permutation; try now apply scan_NoDup.
  intros p. split; apply scan_In_stat; auto.
Qed.

End Listings.

(** ** Claims about [find_completed_segments] *)

(** The scan of the busy root: the two old segments, cameras in
    alphabetical order; not the recent one, not the one exactly 300
    seconds old, not the log, not the stray file, nothing from below
    [archive]. *)
Example scan_of_busy_world :
  find_completed_segments uploader (busy_world [])
  = (Ret [storage ++ ["back-yard"; "20240115_110000.mp4"];
          storage ++ ["front-door"; "20240115_120000.mp4"]],
     busy_world []).
Proof. reflexivity. Qed.



(** Paths below one root compare by camera name first, then by file
    name. *)
Lemma path_le_under_root (root : path) (c1 f1 c2 f2 : string) :
  path_le (root ++ [c1; f1]) (root ++ [c2; f2]) <->
  String.ltb c1 c2 = true \/ (c1 = c2 /\ String.leb f1 f2 = true).
Proof.
  unfold path_le, path_leb, path_compare.
  rewrite list_compare_app by apply string_compare_eq.
  simpl. unfold String.ltb, String.leb.
  destruct (String.compare c1 c2) eqn:Ec.
  - apply string_compare_eq in Ec. subst c2.
    destruct (String.compare f1 f2) eqn:Ef; simpl.
    + split; auto.
    + split; auto.
    + split; [discriminate | intros [H|[_ H]]; discriminate].
  - split; auto.
  - split; [discriminate|].
    intros [H|[H _]]; [discriminate|].
    subst c2. rewrite (proj2 (string_compare_eq c1 c1) eq_refl) in Ec.
    discriminate.
Qed.

(** C9. On a readable storage root the result of
    [find_completed_segments] is in ascending order of path, paths being
    compared component by component (so by camera, then by file name);
    the order is fixed by the set of segments alone, and two trees with
    the same entries, listed in whatever order, give the same result;
    entries of the root that are not
    directories contribute nothing; an empty root gives the empty list and
    no error; a camera directory without entries contributes nothing. *)
Theorem find_completed_segments_sorted
    (self : S3Uploader) (w : World) (m : Q) (es : list (string * node)) :
  lookup (fs w) (local_path self) = Some (Dir m es) ->
  exists segments,
    find_completed_segments self w = (Ret segments, w) /\
    StronglySorted path_le segments /\
    (forall c1 f1 c2 f2,
       path_le (local_path self ++ [c1; f1]) (local_path self ++ [c2; f2]) <->
       String.ltb c1 c2 = true \/ (c1 = c2 /\ String.leb f1 f2 = true)) /\
    (forall l, Permutation l (scan (fs w) (clock w) (local_path self)) ->
               sorted l = segments) /\
    (forall l, StronglySorted path_le l -> Permutation l segments ->
               l = segments) /\
    (forall p, In p segments ->
       exists camera filename cm ces,
         p = local_path self ++ [camera; filename] /\
         lookup (fs w) (local_path self ++ [camera]) = Some (Dir cm ces)) /\
    (es = [] -> segments = []) /\
    (forall camera cm,
       lookup (fs w) (local_path self ++ [camera]) = Some (Dir cm []) ->
       forall filename,
         ~ In (local_path self ++ [camera; filename]) segments) /\
    (forall w',
       well_listed (fs w) = true -> well_listed (fs w') = true ->
       (forall q, stat (fs w') q = stat (fs w) q) ->
       clock w' = clock w ->
       find_completed_segments self w' = (Ret segments, w')).
Proof.
  intros Hroot. eexists. split; [apply (find_completed_segments_eq self w m es Hroot)|].
  split; [apply sorted_sorted|].
  split; [intros; apply path_le_under_root|].
  split; [intros l Hl; now apply sorted_permutation_invariant|].
  split; [intros l Hs Hl; apply strongly_sorted_unique; auto using sorted_sorted|].
  split.
  { intros p Hp. apply sorted_In, scan_In in Hp.
    destruct Hp as (camera & filename & cm & ces & n & -> & Hcam & _).
    exists camera, filename, cm, ces. auto. }
  split.
  { intros ->. unfold scan, children. now rewrite Hroot. }
  split.
  { intros camera cm Hcam filename Hp.
    apply sorted_In, scan_In in Hp.
    destruct Hp as (camera' & filename' & cm' & ces' & n & Heq & Hcam' & Hn & _).
    apply app_inv_head in Heq. injection Heq as <- <-.
    replace (local_path self ++ [camera; filename])
      with ((local_path self ++ [camera]) ++ [filename]) in Hn
      by (now rewrite <- app_assoc).
    rewrite (lookup_child (fs w) (local_path self ++ [camera]) filename cm []
               Hcam) in Hn.
    discriminate. }
  intros w' Hw Hw' Hstat Hclock.
  pose proof (Hstat (local_path self)) as Hr. unfold stat in Hr.
  rewrite Hroot in Hr.
  destruct (lookup (fs w') (local_path self)) as [[m'|m' es']|] eqn:Hroot';
    try discriminate.
  rewrite (find_completed_segments_eq self w' m' es' Hroot'), Hclock.
  now rewrite (scan_relisted (fs w) (fs w') (clock w) (local_path self) Hw Hw' Hstat).
Qed.

Lemma find_completed_segments_sorted_witness :
  exists segments,
    find_completed_segments uploader (busy_world []) = (Ret segments, busy_world []) /\
    StronglySorted path_le segments /\
    (forall c1 f1 c2 f2,
       path_le (local_path uploader ++ [c1; f1]) (local_path uploader ++ [c2; f2]) <->
       String.ltb c1 c2 = true \/ (c1 = c2 /\ String.leb f1 f2 = true)) /\
    (forall l, Permutation l (scan (fs (busy_world [])) (clock (busy_world []))
                                   (local_path uploader)) ->
               sorted l = segments) /\
    (forall l, StronglySorted path_le l -> Permutation l segments ->
               l = segments) /\
    (forall p, In p segments ->
       exists camera filename cm ces,
         p = local_path uploader ++ [camera; filename] /\
         lookup (fs (busy_world [])) (local_path uploader ++ [camera])
         = Some (Dir cm ces)) /\
    (busy_cameras (noon + 400) = [] -> segments = []) /\
    (forall camera cm,
       lookup (fs (busy_world [])) (local_path uploader ++ [camera])
       = Some (Dir cm []) ->
       forall filename,
         ~ In (local_path uploader ++ [camera; filename]) segments) /\
    (forall w',
       well_listed (fs (busy_world [])) = true -> well_listed (fs w') = true ->
       (forall q, stat (fs w') q = stat (fs (busy_world [])) q) ->
       clock w' = clock (busy_world []) ->
       find_completed_segments uploader w' = (Ret segments, w')).
Proof.
  eapply (find_completed_segments_sorted uploader (busy_world [])).
  reflexivity.
Defined.

(** The busy root listed in another order gives the same segments in the
    same order. *)
Example scan_of_relisted_busy_world :
  well_listed (fs (busy_world [])) = true /\
  well_listed (fs busy_world_relisted) = true /\
  fst (find_completed_segments uploader busy_world_relisted)
  = fst (find_completed_segments uploader (busy_world [])).
Proof. repeat split. Qed.

(** An empty storage root: nothing to upload, and no error. *)
Example scan_of_empty_root :
  fst (find_completed_segments uploader
         (world_at (tree_of []) noon []))
  = Ret [].
Proof. reflexivity. Qed.

(** C5, at a failing input.  Camera [front-door] holds a sub-directory
    named [clips.mp4], last modified 400 seconds ago.  [glob("*.mp4")]
    selects entries by name and the loop has no [is_file()] test: the
    directory is returned among the segments, although it is no video
    file ("Find video files that are ready for upload", says the
    docstring).  What is inside the directory is not looked at.  (Camera
    [front] comes before camera [front-door], as names sort, although the
    character [-] comes before [/].) *)
Theorem find_completed_segments_returns_directory :
  lookup (fs odd_world) (storage ++ ["front-door"; "clips.mp4"])
  = Some (Dir noon [("b.mp4", File noon)]) /\
  (clock odd_world - noon == 400)%Q /\
  fst (find_completed_segments uploader odd_world)
  = Ret [storage ++ ["front"; "z.mp4"];
         storage ++ ["front-door"; "a.mp4"];
         storage ++ ["front-door"; "clips.mp4"]].
Proof. repeat split. Qed.

(** Such a directory is then refused by the store client, on every
    cycle. *)
Example directory_is_not_uploaded :
  fst (upload_file uploader (storage ++ ["front-door"; "clips.mp4"]) odd_world)
  = Ret false.
Proof. reflexivity. Qed.

(** The second case of [test_s3_key_generation]: the last second of
    2023. *)
Example key_of_last_second_of_2023 :
  option_map (fun dt => s3_key_of "back-yard" dt "segment.mp4")
             (localtime (fun _ => 0%Z) 1704067199)
  = Some "back-yard/2023/12/31/segment.mp4".
Proof. reflexivity. Qed.

Example names_matching_mp4 :
  (matches_mp4 "20240115_120000.mp4", matches_mp4 ".mp4", matches_mp4 "log.txt",
   matches_mp4 "a.MP4", matches_mp4 "a.mp4.part", matches_mp4 "mp4")
  = (true, true, false, false, false, false).
Proof. reflexivity. Qed.

(** ** The poll loop *)

Section History.

Lemma forget_replay (w0 w : World) : forget (replay w0 w) = forget w.
Proof. reflexivity. Qed.

Lemma replay_replay (w0 w1 w2 : World) :
  replay w0 (replay w1 w2) = replay (replay w0 w1) w2.
Proof. unfold replay. simpl. now rewrite !app_assoc. Qed.

Lemma replay_forget (w : World) : replay w (forget w) = w.
Proof. destruct w. unfold replay, forget. simpl. now rewrite app_nil_r. Qed.

Lemma history_free_ret {A} (a : A) : history_free (ret a).
Proof. intros w. unfold ret. simpl. now rewrite replay_forget. Qed.

(** After [c] has run from [w] and left the history-free [w1], a
    history-free continuation does what it does from [w1]. *)
Lemma history_free_then {A} (k : M A) (w w1 : World) :
  history_free k ->
  k (replay w w1) = (fst (k w1), replay w (snd (k w1))).
Proof.
  intros Hk. rewrite (Hk (replay w w1)), forget_replay.
  rewrite (Hk w1). cbn [fst snd]. now rewrite replay_replay.
Qed.

Lemma history_free_bind {A B} (c : M A) (k : A -> M B) :
  history_free c -> (forall a, history_free (k a)) -> history_free (bind c k).
Proof.
  intros Hc Hk w. unfold bind. rewrite (Hc w).
  destruct (c (forget w)) as [[a|e] w1]; cbn [fst snd]; [|reflexivity].
  now apply history_free_then.
Qed.

Lemma history_free_try2 {A} (c : M A) h1 (k1 : exn -> M A) h2 (k2 : exn -> M A) :
  history_free c -> (forall e, history_free (k1 e)) ->
  (forall e, history_free (k2 e)) ->
  history_free (try_except2 c h1 k1 h2 k2).
Proof.
  intros Hc H1 H2 w. unfold try_except2. rewrite (Hc w).
  destruct (c (forget w)) as [[a|e] w1]; cbn [fst snd]; [reflexivity|].
  destruct (h1 e); [now apply history_free_then|].
  destruct (h2 e); [now apply history_free_then | reflexivity].
Qed.

Lemma history_free_try {A} (c : M A) h (k : exn -> M A) :
  history_free c -> (forall e, history_free (k e)) ->
  history_free (try_except c h k).
Proof.
  intros Hc Hk w. unfold try_except. rewrite (Hc w).
  destruct (c (forget w)) as [[a|e] w1]; cbn [fst snd]; [reflexivity|].
  destruct (h e); [now apply history_free_then | reflexivity].
Qed.

Lemma history_free_for_each {A} (xs : list A) (body : A -> M unit) :
  (forall x, history_free (body x)) -> history_free (for_each xs body).
Proof.
  intros Hb. induction xs as [|x xs IH]; simpl.
  - apply history_free_ret.
  - apply history_free_bind; auto.
Qed.

Lemma history_free_for_fold {A S} (xs : list A) (body : S -> A -> M S) (s : S) :
  (forall s x, history_free (body s x)) -> history_free (for_fold xs body s).
Proof.
  intros Hb. revert s. induction xs as [|x xs IH]; intros s; simpl.
  - apply history_free_ret.
  - apply history_free_bind; auto.
Qed.

End History.

Create HintDb history discriminated.

Ltac history_prim :=
  let w := fresh "w" in
  intros w; destruct w;
  unfold forget, replay, emit, play, store, set_fs, next_move, fs; simpl;
  repeat match goal with
         | |- context [match ?x with _ => _ end] => destruct x; simpl
         end;
  rewrite <- ?app_assoc, ?app_nil_r; reflexivity.

Section Primitives.

Lemma history_free_raise {A} (e : exn) : history_free (@raise A e).
Proof. unfold raise. history_prim. Qed.

Lemma history_free_iterdir p : history_free (iterdir p).
Proof. unfold iterdir. history_prim. Qed.

Lemma history_free_is_dir p : history_free (is_dir p).
Proof. unfold is_dir. history_prim. Qed.

Lemma history_free_glob_mp4 p : history_free (glob_mp4 p).
Proof. unfold glob_mp4. history_prim. Qed.

Lemma history_free_stat_mtime p : history_free (stat_mtime p).
Proof. unfold stat_mtime. history_prim. Qed.

Lemma history_free_unlink p : history_free (unlink p).
Proof. unfold unlink. history_prim. Qed.

Lemma history_free_time_time : history_free time_time.
Proof. unfold time_time. history_prim. Qed.

Lemma history_free_sleep secs : history_free (sleep secs).
Proof. unfold sleep. history_prim. Qed.

Lemma history_free_logger_info msg : history_free (logger_info msg).
Proof. unfold logger_info. history_prim. Qed.

Lemma history_free_logger_error msg : history_free (logger_error msg).
Proof. unfold logger_error. history_prim. Qed.

Lemma history_free_s3_upload_file file bkt key :
  history_free (s3_upload_file file bkt key).
Proof. unfold s3_upload_file. history_prim. Qed.

Lemma history_free_fromtimestamp t : history_free (fromtimestamp t).
Proof.
  intros w. unfold fromtimestamp. simpl.
  destruct (localtime (tz w) t); simpl; now rewrite replay_forget.
Qed.

End Primitives.

#[export] Hint Resolve history_free_ret history_free_raise history_free_iterdir
  history_free_is_dir history_free_glob_mp4 history_free_stat_mtime
  history_free_unlink history_free_time_time history_free_sleep
  history_free_logger_info history_free_logger_error
  history_free_s3_upload_file history_free_fromtimestamp : history.

Ltac history_step :=
  first
    [ apply history_free_bind
    | apply history_free_try
    | apply history_free_try2
    | apply history_free_for_each
    | apply history_free_for_fold
    | solve [auto with history]
    | match goal with
      | |- forall _, _ => intro
      | |- history_free (if ?b then _ else _) => destruct b
      | |- history_free (match ?x with _ => _ end) => destruct x
      end ].

Section Methods.

Variable self : S3Uploader.

Lemma history_free_find_completed_segments :
  history_free (find_completed_segments self).
Proof. unfold find_completed_segments. repeat history_step. Qed.

Lemma history_free_upload_file p : history_free (upload_file self p).
Proof. unfold upload_file. repeat history_step. Qed.

Lemma history_free_poll_cycle : history_free (poll_cycle self).
Proof.
  unfold poll_cycle.
  repeat first [ apply history_free_find_completed_segments
               | apply history_free_upload_file
               | history_step ].
Qed.

Lemma history_free_loop_turn : history_free (loop_turn self).
Proof.
  unfold loop_turn.
  repeat first [ apply history_free_poll_cycle | history_step ].
Qed.

(** What a computation does depends on the environment only. *)
Lemma history_free_same_environment {A} (c : M A) (w1 w2 : World) :
  history_free c -> forget w1 = forget w2 ->
  fst (c w1) = fst (c w2) /\
  new_events w1 (snd (c w1)) = new_events w2 (snd (c w2)) /\
  forget (snd (c w1)) = forget (snd (c w2)).
Proof.
  intros Hc Hw. rewrite (Hc w1), (Hc w2), Hw. simpl.
  repeat split. unfold new_events, replay. simpl.
  now rewrite !skipn_exact.
Qed.

End Methods.

Section PollLoop.

Variable self : S3Uploader.

Lemma sleep_60 (w : World) :
  sleep 60 w =
  ((if interrupt (next_move w) then Raise (mkExn KeyboardInterrupt "")
    else Ret tt),
   play 60 (emit [EvSleep 60] w)).
Proof.
  unfold sleep. change (Qltb 60 0) with false. cbv iota.
  now destruct (interrupt (next_move w)).
Qed.

Lemma Exception_is_not_interrupt (e : exn) :
  isinstance_Exception e = true -> isinstance_KeyboardInterrupt e = false.
Proof.
  unfold isinstance_Exception, isinstance_KeyboardInterrupt.
  now destruct (exc_cls e).
Qed.

(** The [except Exception] clause of the loop: log, sleep 60, go on. *)
Lemma loop_turn_backoff (w w1 : World) (e : exn) :
  poll_cycle self w = (Raise e, w1) ->
  isinstance_Exception e = true ->
  loop_turn self w =
  ((if interrupt (next_move w1) then Raise (mkExn KeyboardInterrupt "")
    else Ret Continue),
   play 60 (emit [EvSleep 60]
              (emit [EvLog ERROR ("Error in upload loop: " ++ exc_msg e)] w1))).
Proof.
  intros Hc He. unfold loop_turn, try_except2.
  erewrite bind_Raise by exact Hc.
  rewrite (Exception_is_not_interrupt e He), He.
  unfold bind at 1. unfold logger_error at 1.
  unfold bind. rewrite sleep_60.
  change (next_move (emit _ w1)) with (next_move w1).
  now destruct (interrupt (next_move w1)).
Qed.

Lemma loop_turn_quiet (w w1 : World) :
  poll_cycle self w = (Ret tt, w1) -> loop_turn self w = (Ret Continue, w1).
Proof.
  intros Hc. unfold loop_turn, try_except2.
  erewrite bind_Ret by exact Hc. reflexivity.
Qed.

(** No [Exception] leaves a turn of the loop. *)
Lemma loop_turn_no_error (w w' : World) (e : exn) :
  loop_turn self w = (Raise e, w') -> isinstance_Exception e = false.
Proof.
  unfold loop_turn, try_except2.
  destruct ((poll_cycle self;; ret Continue) w) as [[c|e0] w1]; [discriminate|].
  destruct (isinstance_KeyboardInterrupt e0).
  - unfold bind, logger_info, ret. discriminate.
  - destruct (isinstance_Exception e0) eqn:E0.
    + unfold bind at 1. unfold logger_error at 1.
      unfold bind. rewrite sleep_60.
      destruct (interrupt _); [|discriminate].
      now intros [= <- _].
    + now intros [= <- _].
Qed.

Lemma while_true_no_error (turns : nat) (w w' : World) (e : exn) :
  while_true turns self w = (Raise e, w') -> isinstance_Exception e = false.
Proof.
  revert w. induction turns as [|n IH]; intros w; simpl; [discriminate|].
  unfold bind.
  destruct (loop_turn self w) as [[c|e0] w1] eqn:E.
  - destruct c; [apply IH | discriminate].
  - intros [= <- _]. eapply loop_turn_no_error; eauto.
Qed.

Lemma run_continuous_no_error (turns : nat) (w w' : World) (e : exn) :
  run_continuous turns self w = (Raise e, w') -> isinstance_Exception e = false.
Proof. unfold run_continuous, bind, logger_info. apply while_true_no_error. Qed.


(** It stops where [upload_file] raises. *)
Lemma upload_loop_stops (segment : path) (rest : list path)
    (w w1 : World) (e : exn) :
  upload_file self segment w = (Raise e, w1) ->
  for_each (segment :: rest)
           (fun segment => _ <- upload_file self segment ;; ret tt) w
  = (Raise e, w1).
Proof.
  intros H. cbn [for_each].
  erewrite bind_Raise; [reflexivity|].
  erewrite bind_Raise by exact H. reflexivity.
Qed.

(** What can leave [upload_file]: the failure of one of the two
    statements before the [try], or something that is no [Exception]. *)
Lemma upload_file_raises_only (p : path) (w w' : World) (e : exn) :
  upload_file self p w = (Raise e, w') ->
  lookup (fs w) p = None \/
  (exists n, lookup (fs w) p = Some n /\
             localtime (tz w) (st_mtime n) = None) \/
  isinstance_Exception e = false.
Proof.
  destruct (lookup (fs w) p) as [n|] eqn:E; [|now left].
  destruct (localtime (tz w) (st_mtime n)) as [dt|] eqn:Ed.
  2:{ intros _. right. left. eauto. }
  rewrite (upload_file_eq self p w n dt E Ed). cbv zeta.
  intros H. right. right.
  destruct (s3_upload_file _ _ _ _) as [[u|e1] w1].
  - destruct (delete_after_upload self); [|discriminate].
    destruct (unlink _ _) as [[u'|e2] w3]; [discriminate|].
    destruct (isinstance_Exception e2) eqn:E2; [discriminate|].
    now injection H as <- _.
  - destruct (isinstance_Exception e1) eqn:E1; [discriminate|].
    now injection H as <- _.
Qed.

End PollLoop.

(** ** Claims about [run_continuous] *)

(** A cycle on the busy root: the two complete segments are uploaded and
    deleted, in order; the recent one and the one exactly 300 seconds old
    stay on disk. *)
Example cycle_uploads_complete_segments_only :
  let r := loop_turn uploader (busy_world []) in
  fst r = Ret Continue /\
  map obj_source (remote (snd r))
  = [storage ++ ["front-door"; "20240115_120000.mp4"];
     storage ++ ["back-yard"; "20240115_110000.mp4"]] /\
  lookup (fs (snd r)) (storage ++ ["back-yard"; "20240115_110000.mp4"]) = None /\
  lookup (fs (snd r)) (storage ++ ["front-door"; "20240115_120000.mp4"]) = None /\
  lookup (fs (snd r)) (storage ++ ["front-door"; "20240115_130000.mp4"])
  = Some (File (noon + 400 - 100)) /\
  lookup (fs (snd r)) (storage ++ ["front-door"; "20240115_125500.mp4"])
  = Some (File (noon + 400 - 300)).
Proof. vm_compute. repeat split. Qed.

(** A store error on the second of three segments: the third is
    attempted all the same. *)
Example store_error_does_not_halt_cycle :
  let r := loop_turn uploader (three_segments [quiet; store_error]) in
  fst r = Ret Continue /\
  map obj_source (remote (snd r)) = [segment_3; segment_1] /\
  lookup (fs (snd r)) segment_2 = Some (File (noon - 3600)).
Proof. vm_compute. repeat split. Qed.

(** C7, at a failing input.  Three complete segments are found; while
    the first is being uploaded the second is removed by somebody else.
    [upload_file] raises on the second, before its [try]; the exception
    leaves the [for] loop and is caught by the loop of [run_continuous],
    which sleeps 60 seconds: the third segment is not attempted in this
    cycle, and stays on disk. *)
Theorem vanished_segment_halts_cycle :
  let w := three_segments [removed_meanwhile segment_2] in
  let r := loop_turn uploader w in
  fst (find_completed_segments uploader w)
  = Ret [segment_1; segment_2; segment_3] /\
  fst r = Ret Continue /\
  new_events w (snd r)
  = [EvLog INFO "Uploading /srv/segments/front-door/20240115_100000.mp4 to front-door/2024/01/15/20240115_100000.mp4";
     EvS3Call segment_1 "test-bucket" "front-door/2024/01/15/20240115_100000.mp4";
     EvS3Ack segment_1 "test-bucket" "front-door/2024/01/15/20240115_100000.mp4";
     EvLog INFO "Upload successful: front-door/2024/01/15/20240115_100000.mp4";
     EvUnlink segment_1;
     EvLog INFO "Deleted local file: /srv/segments/front-door/20240115_100000.mp4";
     EvLog ERROR "Error in upload loop: [Errno 2] No such file or directory: '/srv/segments/front-door/20240115_110000.mp4'";
     EvSleep 60] /\
  (forall bkt key, ~ In (EvS3Call segment_3 bkt key) (new_events w (snd r))) /\
  lookup (fs (snd r)) segment_3 = Some (File noon).
Proof.
  cbv zeta. repeat split; try (vm_compute; reflexivity).
  intros bkt key H. vm_compute in H. no_such_event H.
Qed.

(** C8. An [Exception] that leaves the cycle (the scan, the uploads, the
    sleep that follows) is caught by the loop: it is logged, the loop
    sleeps 60 seconds and goes on to the next turn, unless the operator
    interrupts that sleep.  No [Exception] ever leaves [run_continuous].
    The next turn owes nothing to the failed one: what a turn does is
    fixed by the configuration and by the environment it finds (tree,
    clock, store and operator), whatever happened before. *)
Theorem loop_survives_errors
    (self : S3Uploader) (w w1 : World) (e : exn) :
  poll_cycle self w = (Raise e, w1) ->
  isinstance_Exception e = true ->
  let w2 :=
    play 60 (emit [EvSleep 60]
               (emit [EvLog ERROR ("Error in upload loop: " ++ exc_msg e)] w1)) in
  loop_turn self w =
    ((if interrupt (next_move w1) then Raise (mkExn KeyboardInterrupt "")
      else Ret Continue), w2) /\
  (interrupt (next_move w1) = false ->
   forall turns, while_true (S turns) self w = while_true turns self w2) /\
  (forall turns w0 e' w',
     run_continuous turns self w0 = (Raise e', w') ->
     isinstance_Exception e' = false) /\
  (forall w3,
     forget w3 = forget w2 ->
     fst (loop_turn self w3) = fst (loop_turn self w2) /\
     new_events w3 (snd (loop_turn self w3))
     = new_events w2 (snd (loop_turn self w2)) /\
     forget (snd (loop_turn self w3)) = forget (snd (loop_turn self w2))).
Proof.
  intros Hc He w2.
  pose proof (loop_turn_backoff self w w1 e Hc He) as Hturn.
  split; [exact Hturn|]. split; [|split].
  - intros Hquiet turns. cbn [while_true].
    erewrite bind_Ret by (rewrite Hturn, Hquiet; reflexivity).
    reflexivity.
  - intros turns w0 e' w'. apply run_continuous_no_error.
  - intros w3 Hsame.
    apply history_free_same_environment; [apply history_free_loop_turn | exact Hsame].
Qed.

Lemma loop_survives_errors_witness :
  let w2 :=
    play 60 (emit [EvSleep 60]
               (emit [EvLog ERROR ("Error in upload loop: " ++
                                   exc_msg (no_such_file storage))]
                     (broken_world [remounted]))) in
  loop_turn uploader (broken_world [remounted]) =
    ((if interrupt (next_move (broken_world [remounted]))
      then Raise (mkExn KeyboardInterrupt "")
      else Ret Continue), w2) /\
  (interrupt (next_move (broken_world [remounted])) = false ->
   forall turns,
     while_true (S turns) uploader (broken_world [remounted])
     = while_true turns uploader w2) /\
  (forall turns w0 e' w',
     run_continuous turns uploader w0 = (Raise e', w') ->
     isinstance_Exception e' = false) /\
  (forall w3,
     forget w3 = forget w2 ->
     fst (loop_turn uploader w3) = fst (loop_turn uploader w2) /\
     new_events w3 (snd (loop_turn uploader w3))
     = new_events w2 (snd (loop_turn uploader w2)) /\
     forget (snd (loop_turn uploader w3)) = forget (snd (loop_turn uploader w2))).
Proof.
  apply (loop_survives_errors uploader (broken_world [remounted])
           (broken_world [remounted]) (no_such_file storage));
    reflexivity.
Defined.

(** The storage root is missing during the first cycle and back during
    the back-off: the second cycle uploads what is complete by then. *)
Example recovery_after_missing_root :
  let r := run_continuous 2 uploader (broken_world [remounted]) in
  fst r = Ret Running /\
  firstn 3 (trace (snd r))
  = [EvLog INFO "Starting S3 uploader";
     EvLog ERROR "Error in upload loop: [Errno 2] No such file or directory: '/srv/segments'";
     EvSleep 60] /\
  map obj_key (remote (snd r))
  = ["front-door/2024/01/15/20240115_125500.mp4";
     "front-door/2024/01/15/20240115_120000.mp4";
     "back-yard/2024/01/15/20240115_110000.mp4"].
Proof. vm_compute. repeat split. Qed.

(** ** What [upload_file] leaves alone *)

Section Frame.



Lemma lookup_below_file (m : Q) (q : path) :
  q <> [] -> lookup (File m) q = None.
Proof. destruct q; [congruence | reflexivity]. Qed.







End Frame.







(** ** Interrupts *)





(** ** The cycle, statement by statement *)

Section Cycle.

Variable self : S3Uploader.





End Cycle.



(** ** From one cycle to the next *)

Section NextScan.

Variable self : S3Uploader.




End NextScan.





(** ** A cycle nobody disturbs *)

Section Undisturbed.

Variable self : S3Uploader.







End Undisturbed.



(** ** Keys do not collide *)

Section Keys.







End Keys.



(** ** A removal the system refuses *)


